(** * The WebRTC signaling handler of the meeting page

    A shallow embedding of [class WebRTCHandler] (webrtc-handler.js): the
    peer-connection map, the signaling dispatcher and the handlers behind
    it, together with the statements the design document makes about
    them.

    Conventions of the embedding.
    - [this] and the things the handler talks to (the console, the
      signaling socket, the RTCPeerConnection objects) are fields of one
      record, [World]; every method is a function in a state-and-exception
      monad over it.
    - An [async] method is run to completion as one step.  In the
      browser an [async] handler gives way at each [await], and
      [ws.onmessage] does not wait for the handler of the message before;
      a run here is a sequence of whole handlers, with no other event
      between the statements of one.
    - The socket is the one [this.ws] refers to; the events of a socket
      that a later [initialize] has replaced are not followed.
    - The page's [onRemoteStream] callback is known by how a call of it
      ends, and each call is recorded; what it does to the page is not
      followed, and it is taken not to call back into the handler.
    - RTCPeerConnection is a browser interface.  The handler is written
      against the interface ([Platform]); a state machine for it is given
      separately ([Negotiation]) for the scenarios that need one. *)

From stdpp Require Import gmap strings list fin_maps.

Set Default Proof Using "Type".

(** ** Wire data *)

Inductive RTCSdpType := SdpOffer | SdpAnswer.

Record RTCSessionDescription := {
  sdp_type : RTCSdpType;
  sdp_text : string
}.

Record RTCIceCandidate := {
  cand_candidate : string;
  cand_sdpMid : option string;
  cand_sdpMLineIndex : option nat
}.

Record MediaStreamTrack := {
  track_id : string;
  track_kind : string
}.

#[global] Instance RTCSdpType_eq_dec : EqDecision RTCSdpType.
Proof. solve_decision. Defined.
#[global] Instance RTCSessionDescription_eq_dec : EqDecision RTCSessionDescription.
Proof. solve_decision. Defined.
#[global] Instance RTCIceCandidate_eq_dec : EqDecision RTCIceCandidate.
Proof. solve_decision. Defined.
#[global] Instance MediaStreamTrack_eq_dec : EqDecision MediaStreamTrack.
Proof. solve_decision. Defined.

(** A participant id as a JavaScript value: a string, or [undefined]
    ([None]) when the field is missing from the message. *)
Abbreviation key := (option string).

(** Values that occur as fields of an outbound message. *)
Inductive jsval :=
| VStr (s : string)
| VBool (b : bool)
| VDesc (d : RTCSessionDescription)
| VCand (c : RTCIceCandidate).

(** An outbound message, as the object handed to [JSON.stringify]: a
    finite map from property names to values. *)
Abbreviation jsobj := (gmap string jsval).

(** [{ ..., k: v }] where [v] may be [undefined]: [JSON.stringify] omits
    such a property. *)
Definition prop (k : string) (v : option jsval) (o : jsobj) : jsobj :=
  match v with
  | Some x => <[k := x]> o
  | None => delete k o
  end.

(** An inbound message, [JSON.parse (event.data)], read through the
    fields the handlers destructure. *)
Record Message := {
  msg_type : option string;
  msg_userId : key;
  msg_userName : option string;
  msg_from : key;
  msg_to : key;
  msg_sdp : option RTCSessionDescription;
  msg_candidate : option RTCIceCandidate
}.

(** ** The console *)

Inductive Level := LLog | LWarn | LError.

Inductive LogEntry :=
| LogWsConnected
| LogWsDisconnected
| ErrWs
| LogReceived (type : option string)
| LogUserJoined (userName : option string) (userId : key)
| LogUserLeft (userId : key)
| LogOffer (from : key)
| LogAnswer (from : key)
| ErrCreatingOffer (userId : key)
| ErrHandlingOffer (from : key)
| ErrSettingRemote (from : key)
| ErrAddingIce (from : key)
| LogTrack (kind : string) (userId : key)
| LogAddingScreenShare
| ErrAddingScreenShare (userId : key)
| LogRemovingScreenShare
| ErrRemovingScreenShare (userId : key)
| LogClosing.

(** [console.log] or [console.error]; the handler never calls
    [console.warn]. *)
Definition level (e : LogEntry) : Level :=
  match e with
  | ErrWs | ErrCreatingOffer _ | ErrHandlingOffer _ | ErrSettingRemote _
  | ErrAddingIce _ | ErrAddingScreenShare _ | ErrRemovingScreenShare _ => LError
  | _ => LLog
  end.

(** ** The JavaScript [Map]: insertion-ordered, one entry per key *)

Section JsMap.
Context {V : Type}.

Fixpoint jsmap_get (k : key) (m : list (key * V)) : option V :=
  match m with
  | [] => None
  | (k', v) :: m' => if decide (k' = k) then Some v else jsmap_get k m'
  end.

(** [m.set(k, v)]: an existing key keeps its position. *)
Fixpoint jsmap_set (k : key) (v : V) (m : list (key * V)) : list (key * V) :=
  match m with
  | [] => [(k, v)]
  | (k', v') :: m' =>
      if decide (k' = k) then (k, v) :: m' else (k', v') :: jsmap_set k v m'
  end.

Fixpoint jsmap_delete (k : key) (m : list (key * V)) : list (key * V) :=
  match m with
  | [] => []
  | (k', v') :: m' =>
      if decide (k' = k) then jsmap_delete k m' else (k', v') :: jsmap_delete k m'
  end.

Definition jsmap_keys (m : list (key * V)) : list key := m.*1.

End JsMap.

(** ** The browser's RTCPeerConnection and WebSocket, as an interface

    [None] stands for a thrown exception or a rejected promise. *)

Class Platform := {
  RTCPeerConnection : Type;
  newRTCPeerConnection : RTCPeerConnection;
  addTrack : MediaStreamTrack → RTCPeerConnection → option RTCPeerConnection;
  getSenders : RTCPeerConnection → list MediaStreamTrack;
  removeTrack : MediaStreamTrack → RTCPeerConnection → option RTCPeerConnection;
  createOffer : RTCPeerConnection → option RTCSessionDescription;
  createAnswer : RTCPeerConnection → option RTCSessionDescription;
  setLocalDescription :
    RTCSessionDescription → RTCPeerConnection → option RTCPeerConnection;
  setRemoteDescription :
    RTCSessionDescription → RTCPeerConnection → option RTCPeerConnection;
  addIceCandidate : RTCIceCandidate → RTCPeerConnection → option RTCPeerConnection;
  closePeerConnection : RTCPeerConnection → RTCPeerConnection;
  (** [new WebSocket(url)]: whether the constructor takes the URL; it
      throws otherwise.  A socket it returns is connecting. *)
  newWebSocket : string → bool
}.

Inductive ReadyState := CONNECTING | OPEN | CLOSING | CLOSED_.

#[global] Instance ReadyState_eq_dec : EqDecision ReadyState.
Proof. solve_decision. Defined.

(** How a call ends: it returns a value, or it throws (for an [async]
    function: the promise it returned is rejected). *)
Inductive Outcome (A : Type) :=
| Normal (a : A)
| Throw.
Arguments Normal {A} a.
Arguments Throw {A}.

(** ** The handler *)

Section Handler.
Context `{Platform}.

(** A peer-connection object on the heap: its platform state and the
    [userId] captured by the callbacks [createPeerConnection] attaches. *)
Record PcObject := {
  pc_state : RTCPeerConnection;
  pc_peer : key
}.

Record World := {
  meetingId : string;
  userId : string;
  userName : string;
  localStream : option (list MediaStreamTrack);
  (** [this.peerConnections]: participant id to object reference. *)
  peerConnections : list (key * nat);
  (** [this.ws]: [None] is [null]; otherwise the socket's readyState. *)
  ws : option ReadyState;
  (** Every RTCPeerConnection constructed so far, by reference. *)
  heap : list PcObject;
  (** What [ws.send] has put on the signaling channel, oldest first. *)
  wire : list jsobj;
  console : list LogEntry;
  (** [this.onRemoteStream]: [None] is [null]; otherwise the page's
      callback, by how a call [(userId, stream, track)] of it ends. *)
  onRemoteStream :
    option (key → option (list MediaStreamTrack) → MediaStreamTrack → Outcome unit);
  (** The calls made to [onRemoteStream], oldest first. *)
  remoteStreams : list (key * option (list MediaStreamTrack) * MediaStreamTrack)
}.

Definition set_localStream (s : option (list MediaStreamTrack)) (w : World) : World :=
  {| meetingId := meetingId w; userId := userId w; userName := userName w;
     localStream := s; peerConnections := peerConnections w; ws := ws w;
     heap := heap w; wire := wire w; console := console w;
     onRemoteStream := onRemoteStream w; remoteStreams := remoteStreams w |}.

Definition set_peerConnections (m : list (key * nat)) (w : World) : World :=
  {| meetingId := meetingId w; userId := userId w; userName := userName w;
     localStream := localStream w; peerConnections := m; ws := ws w;
     heap := heap w; wire := wire w; console := console w;
     onRemoteStream := onRemoteStream w; remoteStreams := remoteStreams w |}.

Definition set_ws (s : option ReadyState) (w : World) : World :=
  {| meetingId := meetingId w; userId := userId w; userName := userName w;
     localStream := localStream w; peerConnections := peerConnections w; ws := s;
     heap := heap w; wire := wire w; console := console w;
     onRemoteStream := onRemoteStream w; remoteStreams := remoteStreams w |}.

Definition set_heap (h : list PcObject) (w : World) : World :=
  {| meetingId := meetingId w; userId := userId w; userName := userName w;
     localStream := localStream w; peerConnections := peerConnections w; ws := ws w;
     heap := h; wire := wire w; console := console w;
     onRemoteStream := onRemoteStream w; remoteStreams := remoteStreams w |}.

Definition set_wire (o : list jsobj) (w : World) : World :=
  {| meetingId := meetingId w; userId := userId w; userName := userName w;
     localStream := localStream w; peerConnections := peerConnections w; ws := ws w;
     heap := heap w; wire := o; console := console w;
     onRemoteStream := onRemoteStream w; remoteStreams := remoteStreams w |}.

Definition set_console (c : list LogEntry) (w : World) : World :=
  {| meetingId := meetingId w; userId := userId w; userName := userName w;
     localStream := localStream w; peerConnections := peerConnections w; ws := ws w;
     heap := heap w; wire := wire w; console := c;
     onRemoteStream := onRemoteStream w; remoteStreams := remoteStreams w |}.

Definition set_onRemoteStream
    (f : option (key → option (list MediaStreamTrack) → MediaStreamTrack → Outcome unit))
    (w : World) : World :=
  {| meetingId := meetingId w; userId := userId w; userName := userName w;
     localStream := localStream w; peerConnections := peerConnections w; ws := ws w;
     heap := heap w; wire := wire w; console := console w;
     onRemoteStream := f; remoteStreams := remoteStreams w |}.

Definition set_remoteStreams
    (l : list (key * option (list MediaStreamTrack) * MediaStreamTrack))
    (w : World) : World :=
  {| meetingId := meetingId w; userId := userId w; userName := userName w;
     localStream := localStream w; peerConnections := peerConnections w; ws := ws w;
     heap := heap w; wire := wire w; console := console w;
     onRemoteStream := onRemoteStream w; remoteStreams := l |}.

(** [new WebRTCHandler(meetingId, userId, userName, localStream)] *)
Definition constructor (mid uid uname : string)
    (stream : option (list MediaStreamTrack)) : World :=
  {| meetingId := mid; userId := uid; userName := uname; localStream := stream;
     peerConnections := []; ws := None; heap := []; wire := []; console := [];
     onRemoteStream := None; remoteStreams := [] |}.

(** *** State and exceptions *)

Definition M (A : Type) : Type := World → Outcome A * World.

Definition ret {A} (a : A) : M A := λ w, (Normal a, w).

Definition bind {A B} (k : A → M B) (m : M A) : M B :=
  λ w, match m w with
       | (Normal a, w') => k a w'
       | (Throw, w') => (Throw, w')
       end.

#[local] Instance M_ret : MRet M := @ret.
#[local] Instance M_bind : MBind M := @bind.

Definition throw {A} : M A := λ w, (Throw, w).

(** [try { body } catch (error) { handler }]: what [body] did before it
    threw stays done. *)
Definition try_catch (body handler : M unit) : M unit :=
  λ w, match body w with
       | (Normal a, w') => (Normal a, w')
       | (Throw, w') => handler w'
       end.

Definition get : M World := λ w, (Normal w, w).
Definition modify (f : World → World) : M unit := λ w, (Normal tt, f w).

Definition when (b : bool) (m : M unit) : M unit := if b then m else ret tt.

Fixpoint forEach {A} (l : list A) (f : A → M unit) : M unit :=
  match l with
  | [] => ret tt
  | x :: l' => f x;; forEach l' f
  end.

Definition log (e : LogEntry) : M unit :=
  modify (λ w, set_console (console w ++ [e]) w).

(** A method call on the peer-connection object behind reference [h]
    that changes the object. *)
Definition pcCall (h : nat) (op : RTCPeerConnection → option RTCPeerConnection) : M unit :=
  λ w, match heap w !! h with
       | Some o =>
           match op (pc_state o) with
           | Some s => (Normal tt,
                        set_heap (<[h := {| pc_state := s; pc_peer := pc_peer o |}]> (heap w)) w)
           | None => (Throw, w)
           end
       | None => (Throw, w)
       end.

(** A method call that returns a value. *)
Definition pcQuery {A} (h : nat) (op : RTCPeerConnection → option A) : M A :=
  λ w, match heap w !! h with
       | Some o =>
           match op (pc_state o) with
           | Some a => (Normal a, w)
           | None => (Throw, w)
           end
       | None => (Throw, w)
       end.

(** *** sendSignal *)

Definition sendSignal (data : jsobj) : M unit :=
  w ← get;
  when (bool_decide (ws w = Some OPEN))
    (modify (set_wire (wire w ++ [<["from" := VStr (userId w)]> data]))).

(** *** createPeerConnection *)

Definition createPeerConnection (uid : key) : M nat :=
  w ← get;
  let pc := length (heap w) in
  modify (set_heap (heap w ++ [{| pc_state := newRTCPeerConnection; pc_peer := uid |}]));;
  modify (λ w, set_peerConnections (jsmap_set uid pc (peerConnections w)) w);;
  ret pc.

(** [if (this.localStream) this.localStream.getTracks().forEach(...)] *)
Definition addLocalTracks (pc : nat) : M unit :=
  w ← get;
  match localStream w with
  | Some tracks => forEach tracks (λ track, pcCall pc (addTrack track))
  | None => ret tt
  end.

Definition VKey (k : key) : option jsval := VStr <$> k.

(** [createOffer], [setLocalDescription], then the offer on the wire. *)
Definition negotiate (uid : key) (pc : nat) : M unit :=
  offer ← pcQuery pc createOffer;
  pcCall pc (setLocalDescription offer);;
  sendSignal (prop "sdp" (Some (VDesc offer))
             (prop "to" (VKey uid)
             (prop "type" (Some (VStr "offer")) ∅))).

(** *** Inbound messages *)

Definition handleUserJoined (message : Message) : M unit :=
  let uid := msg_userId message in
  w ← get;
  if decide (uid = Some (userId w)) then ret tt
  else
    log (LogUserJoined (msg_userName message) uid);;
    pc ← createPeerConnection uid;
    addLocalTracks pc;;
    try_catch (negotiate uid pc) (log (ErrCreatingOffer uid)).

(** [pc.close()] on the object behind reference [pc]; it never throws. *)
Definition closeObject (pc : nat) : M unit :=
  modify (λ w, set_heap (alter (λ o, {| pc_state := closePeerConnection (pc_state o);
                                        pc_peer := pc_peer o |}) pc (heap w)) w).

Definition handleUserLeft (message : Message) : M unit :=
  let uid := msg_userId message in
  log (LogUserLeft uid);;
  w ← get;
  match jsmap_get uid (peerConnections w) with
  | Some pc =>
      closeObject pc;;
      modify (λ w, set_peerConnections (jsmap_delete uid (peerConnections w)) w)
  | None => ret tt
  end.

(** [pc.setRemoteDescription(new RTCSessionDescription(sdp))]; without an
    [sdp] there is nothing to apply and the call fails. *)
Definition applyRemoteDescription (pc : nat) (sdp : option RTCSessionDescription) : M unit :=
  match sdp with
  | Some d => pcCall pc (setRemoteDescription d)
  | None => throw
  end.

(** The body of the [try] in [handleOffer]. *)
Definition answerOffer (from : key) (pc : nat)
    (sdp : option RTCSessionDescription) : M unit :=
  applyRemoteDescription pc sdp;;
  answer ← pcQuery pc createAnswer;
  pcCall pc (setLocalDescription answer);;
  sendSignal (prop "sdp" (Some (VDesc answer))
             (prop "to" (VKey from)
             (prop "type" (Some (VStr "answer")) ∅))).

Definition handleOffer (message : Message) : M unit :=
  let from := msg_from message in
  log (LogOffer from);;
  w ← get;
  pc ← match jsmap_get from (peerConnections w) with
       | Some pc => ret pc
       | None => pc ← createPeerConnection from; addLocalTracks pc;; ret pc
       end;
  try_catch (answerOffer from pc (msg_sdp message))
            (log (ErrHandlingOffer from)).

Definition handleAnswer (message : Message) : M unit :=
  let from := msg_from message in
  log (LogAnswer from);;
  w ← get;
  match jsmap_get from (peerConnections w) with
  | Some pc =>
      try_catch (applyRemoteDescription pc (msg_sdp message))
                (log (ErrSettingRemote from))
  | None => ret tt
  end.

Definition handleIceCandidate (message : Message) : M unit :=
  let from := msg_from message in
  w ← get;
  match jsmap_get from (peerConnections w), msg_candidate message with
  | Some pc, Some candidate =>
      try_catch (pcCall pc (addIceCandidate candidate))
                (log (ErrAddingIce from))
  | _, _ => ret tt
  end.

Definition handleSignalingMessage (message : Message) : M unit :=
  log (LogReceived (msg_type message));;
  let type := msg_type message in
  if decide (type = Some "user-joined") then handleUserJoined message
  else if decide (type = Some "user-left") then handleUserLeft message
  else if decide (type = Some "offer") then handleOffer message
  else if decide (type = Some "answer") then handleAnswer message
  else if decide (type = Some "ice-candidate") then handleIceCandidate message
  else ret tt.

(** *** Callbacks attached by createPeerConnection *)

(** [pc.onicecandidate], for the object behind reference [pc]. *)
Definition onicecandidate (pc : nat) (candidate : option RTCIceCandidate) : M unit :=
  w ← get;
  match heap w !! pc, candidate with
  | Some o, Some c =>
      sendSignal (prop "candidate" (Some (VCand c))
                 (prop "to" (VKey (pc_peer o))
                 (prop "type" (Some (VStr "ice-candidate")) ∅)))
  | _, _ => ret tt
  end.

(** [this.onRemoteStream(userId, stream, track)]: the call is recorded,
    and ends as the page's callback does. *)
Definition callOnRemoteStream
    (callback : key → option (list MediaStreamTrack) → MediaStreamTrack → Outcome unit)
    (uid : key) (stream : option (list MediaStreamTrack)) (track : MediaStreamTrack)
    : M unit :=
  modify (λ w, set_remoteStreams (remoteStreams w ++ [(uid, stream, track)]) w);;
  match callback uid stream track with
  | Normal _ => ret tt
  | Throw => throw
  end.

(** [pc.ontrack], for the object behind reference [pc]; [streams] is
    [event.streams].  The callback is called outside any [try]. *)
Definition ontrack (pc : nat) (track : MediaStreamTrack)
    (streams : list (list MediaStreamTrack)) : M unit :=
  w ← get;
  match heap w !! pc with
  | Some o =>
      log (LogTrack (track_kind track) (pc_peer o));;
      match onRemoteStream w with
      | Some callback => callOnRemoteStream callback (pc_peer o) (head streams) track
      | None => ret tt
      end
  | None => ret tt
  end.

(** *** Screen sharing and media state *)

Definition addScreenShareTrack (track : MediaStreamTrack) : M unit :=
  log LogAddingScreenShare;;
  w ← get;
  forEach (peerConnections w) (λ e,
    try_catch (pcCall e.2 (addTrack track);; negotiate e.1 e.2)
              (log (ErrAddingScreenShare e.1)));;
  sendSignal (prop "userId" (Some (VStr (userId w)))
             (prop "type" (Some (VStr "screen-share-started")) ∅)).

Definition hasSender (pc : nat) (track : MediaStreamTrack) : M bool :=
  pcQuery pc (λ s, Some (bool_decide (track ∈ getSenders s))).

Definition removeScreenShareTrack (track : MediaStreamTrack) : M unit :=
  log LogRemovingScreenShare;;
  w ← get;
  forEach (peerConnections w) (λ e,
    try_catch (sender ← hasSender e.2 track;
               when sender (pcCall e.2 (removeTrack track);; negotiate e.1 e.2))
              (log (ErrRemovingScreenShare e.1)));;
  sendSignal (prop "userId" (Some (VStr (userId w)))
             (prop "type" (Some (VStr "screen-share-stopped")) ∅)).

Definition updateLocalStream (stream : option (list MediaStreamTrack)) : M unit :=
  modify (set_localStream stream).

Definition notifyMediaStateChange (isMuted isVideoOff : bool) : M unit :=
  w ← get;
  sendSignal (prop "isVideoOff" (Some (VBool isVideoOff))
             (prop "isMuted" (Some (VBool isMuted))
             (prop "userId" (Some (VStr (userId w)))
             (prop "type" (Some (VStr "media-state-change")) ∅)))).

(** *** The signaling socket *)

(** [initialize(wsUrl)] up to the socket's first event.  When
    [new WebSocket(wsUrl)] throws, the [catch] rejects the promise that
    [initialize] returned and [this.ws] stays what it was. *)
Definition initialize (wsUrl : string) : M unit :=
  if newWebSocket wsUrl then modify (set_ws (Some CONNECTING)) else throw.

(** [ws.onmessage]; [parsed] is [JSON.parse(event.data)], [None] when
    the parser throws or gives [null], which has no [type] to read.  The
    handler has no [try] of its own. *)
Definition ws_onmessage (parsed : option Message) : M unit :=
  match parsed with
  | Some message => handleSignalingMessage message
  | None => throw
  end.

(** [ws.onopen]: fires on a connecting socket only. *)
Definition ws_onopen : M unit :=
  w ← get;
  match ws w with
  | Some CONNECTING =>
      modify (set_ws (Some OPEN));;
      log LogWsConnected;;
      sendSignal (prop "userName" (Some (VStr (userName w)))
                 (prop "userId" (Some (VStr (userId w)))
                 (prop "type" (Some (VStr "join")) ∅)))
  | _ => ret tt
  end.

Definition ws_onerror : M unit := log ErrWs.

(** [ws.onclose]: the socket is closed by now; the line is written also
    when [close()] has set [this.ws] to [null] in the meantime. *)
Definition ws_onclose : M unit :=
  w ← get;
  match ws w with
  | Some _ => modify (set_ws (Some CLOSED_))
  | None => ret tt
  end;;
  log LogWsDisconnected.

(** *** close *)

Definition close : M unit :=
  log LogClosing;;
  w ← get;
  forEach (peerConnections w) (λ e, closeObject e.2);;
  modify (set_peerConnections []);;
  w ← get;
  match ws w with
  | Some _ =>
      sendSignal (prop "userId" (Some (VStr (userId w)))
                 (prop "type" (Some (VStr "leave")) ∅));;
      modify (set_ws None)
  | None => ret tt
  end.

(** [handler.onRemoteStream = callback], as the page does after
    constructing the handler. *)
Definition assignOnRemoteStream
    (callback : option (key → option (list MediaStreamTrack) → MediaStreamTrack
                        → Outcome unit)) : M unit :=
  modify (set_onRemoteStream callback).

(** ** Runs

    Everything that can happen to a handler: a call of one of its
    methods by the page, an assignment to its callback field, or an
    event of the socket or of a peer connection. *)
Inductive Event :=
| EInitialize (wsUrl : string)
| EWsOpen
| EWsError
| EWsClose
| EMessage (message : Message)
| EUnparsed
| EIceCandidate (pc : nat) (candidate : option RTCIceCandidate)
| ETrack (pc : nat) (track : MediaStreamTrack) (streams : list (list MediaStreamTrack))
| EAddScreenShareTrack (track : MediaStreamTrack)
| ERemoveScreenShareTrack (track : MediaStreamTrack)
| EUpdateLocalStream (stream : option (list MediaStreamTrack))
| ENotifyMediaStateChange (isMuted isVideoOff : bool)
| EAssignOnRemoteStream
    (callback : option (key → option (list MediaStreamTrack) → MediaStreamTrack
                        → Outcome unit))
| EClose.

Definition react (e : Event) : M unit :=
  match e with
  | EInitialize wsUrl => initialize wsUrl
  | EWsOpen => ws_onopen
  | EWsError => ws_onerror
  | EWsClose => ws_onclose
  | EMessage message => ws_onmessage (Some message)
  | EUnparsed => ws_onmessage None
  | EIceCandidate pc candidate => onicecandidate pc candidate
  | ETrack pc track streams => ontrack pc track streams
  | EAddScreenShareTrack track => addScreenShareTrack track
  | ERemoveScreenShareTrack track => removeScreenShareTrack track
  | EUpdateLocalStream stream => updateLocalStream stream
  | ENotifyMediaStateChange isMuted isVideoOff =>
      notifyMediaStateChange isMuted isVideoOff
  | EAssignOnRemoteStream callback => assignOnRemoteStream callback
  | EClose => close
  end.

(** One event, handled to its end before the next one; a handler that
    throws leaves the world as it was when it threw, and the event loop
    goes on. *)
Definition step (w : World) (e : Event) : World := (react e w).2.

Definition run (es : list Event) (w : World) : World := foldl step w es.

Definition connection (uid : key) (w : World) : option RTCPeerConnection :=
  pc ← jsmap_get uid (peerConnections w);
  pc_state <$> heap w !! pc.

End Handler.

Arguments Normal {A} a.
Arguments Throw {A}.
#[global] Existing Instances M_ret M_bind.

(** ** A peer connection that follows the negotiation state machine *)

Module Negotiation.

Inductive State := NEW | HAVE_LOCAL_OFFER | HAVE_REMOTE_OFFER | STABLE | CLOSED.

#[global] Instance State_eq_dec : EqDecision State.
Proof. solve_decision. Defined.

Record Pc := {
  state : State;
  localDescription : option RTCSessionDescription;
  remoteDescription : option RTCSessionDescription;
  senders : list MediaStreamTrack;
  (** Remote candidates the connection has taken, oldest first. *)
  remoteCandidates : list RTCIceCandidate
}.

(** Modelled from the spec: the browser's RTCPeerConnection is not part
    of the repository.  A connection starts in [NEW] with nothing
    attached. *)
Definition new : Pc :=
  {| state := NEW; localDescription := None; remoteDescription := None;
     senders := []; remoteCandidates := [] |}.

(** Modelled from the spec: a track is attached once, to a connection
    that is not closed. *)
Definition add_track (t : MediaStreamTrack) (pc : Pc) : option Pc :=
  if decide (state pc = CLOSED) then None
  else if decide (t ∈ senders pc) then None
  else Some {| state := state pc; localDescription := localDescription pc;
               remoteDescription := remoteDescription pc;
               senders := senders pc ++ [t];
               remoteCandidates := remoteCandidates pc |}.

(** Modelled from the spec: detaching a track from a connection that is
    not closed. *)
Definition remove_track (t : MediaStreamTrack) (pc : Pc) : option Pc :=
  if decide (state pc = CLOSED) then None
  else Some {| state := state pc; localDescription := localDescription pc;
               remoteDescription := remoteDescription pc;
               senders := filter (λ s, s ≠ t) (senders pc);
               remoteCandidates := remoteCandidates pc |}.

(** The session text lists the attached tracks. *)
Definition describe (ty : RTCSdpType) (pc : Pc) : RTCSessionDescription :=
  {| sdp_type := ty;
     sdp_text := String.concat ";" (track_id <$> senders pc) |}.

(** Modelled from the spec: a local offer can be produced unless the
    connection is closed or holds an unanswered remote offer. *)
Definition create_offer (pc : Pc) : option RTCSessionDescription :=
  match state pc with
  | CLOSED | HAVE_REMOTE_OFFER => None
  | _ => Some (describe SdpOffer pc)
  end.

(** Modelled from the spec: a local answer answers a remote offer. *)
Definition create_answer (pc : Pc) : option RTCSessionDescription :=
  match state pc with
  | HAVE_REMOTE_OFFER => Some (describe SdpAnswer pc)
  | _ => None
  end.

(** Modelled from the spec: a local offer leads to [HAVE_LOCAL_OFFER];
    a local answer leads from [HAVE_REMOTE_OFFER] to [STABLE]. *)
Definition set_local (d : RTCSessionDescription) (pc : Pc) : option Pc :=
  let to s := Some {| state := s; localDescription := Some d;
                      remoteDescription := remoteDescription pc;
                      senders := senders pc;
                      remoteCandidates := remoteCandidates pc |} in
  match sdp_type d, state pc with
  | SdpOffer, (NEW | STABLE | HAVE_LOCAL_OFFER) => to HAVE_LOCAL_OFFER
  | SdpAnswer, HAVE_REMOTE_OFFER => to STABLE
  | _, _ => None
  end.

(** Modelled from the spec: a remote offer leads to [HAVE_REMOTE_OFFER];
    a remote answer is only valid in [HAVE_LOCAL_OFFER] and leads to
    [STABLE]. *)
Definition set_remote (d : RTCSessionDescription) (pc : Pc) : option Pc :=
  let to s := Some {| state := s; localDescription := localDescription pc;
                      remoteDescription := Some d;
                      senders := senders pc;
                      remoteCandidates := remoteCandidates pc |} in
  match sdp_type d, state pc with
  | SdpOffer, (NEW | STABLE | HAVE_REMOTE_OFFER) => to HAVE_REMOTE_OFFER
  | SdpAnswer, HAVE_LOCAL_OFFER => to STABLE
  | _, _ => None
  end.

(** Modelled from the spec: a remote candidate is taken in any state but
    [CLOSED], once a remote description exists. *)
Definition add_ice_candidate (c : RTCIceCandidate) (pc : Pc) : option Pc :=
  match state pc, remoteDescription pc with
  | CLOSED, _ | _, None => None
  | _, Some _ =>
      Some {| state := state pc; localDescription := localDescription pc;
              remoteDescription := remoteDescription pc;
              senders := senders pc;
              remoteCandidates := remoteCandidates pc ++ [c] |}
  end.

(** Modelled from the spec: closing is final and never fails. *)
Definition close_pc (pc : Pc) : Pc :=
  {| state := CLOSED; localDescription := localDescription pc;
     remoteDescription := remoteDescription pc;
     senders := senders pc; remoteCandidates := remoteCandidates pc |}.

(** Modelled from the spec: the signaling channel is a WebSocket.  Of
    its constructor only the scheme check is kept: it takes the URLs of
    the [ws:] and [wss:] schemes, which the guide's addresses have, and
    throws on any other. *)
Definition web_socket_url (url : string) : bool :=
  String.prefix "ws://" url || String.prefix "wss://" url.

(** Modelled from the spec: the platform the handler runs on, with the
    connection states and transitions of the negotiation engine. *)
#[global] Instance platform : Platform := {|
  RTCPeerConnection := Pc;
  newRTCPeerConnection := new;
  addTrack := add_track;
  getSenders := senders;
  removeTrack := remove_track;
  createOffer := create_offer;
  createAnswer := create_answer;
  setLocalDescription := set_local;
  setRemoteDescription := set_remote;
  addIceCandidate := add_ice_candidate;
  closePeerConnection := close_pc;
  newWebSocket := web_socket_url
|}.

(** Views of a connection used in the statements below. *)

Definition with_senders (ts : list MediaStreamTrack) (pc : Pc) : Pc :=
  {| state := state pc; localDescription := localDescription pc;
     remoteDescription := remoteDescription pc; senders := ts;
     remoteCandidates := remoteCandidates pc |}.

(** The connection after a remote answer has been accepted. *)
Definition answered (d : RTCSessionDescription) (s : Pc) : Pc :=
  {| state := STABLE; localDescription := localDescription s;
     remoteDescription := Some d; senders := senders s;
     remoteCandidates := remoteCandidates s |}.

(** The connection is open and has a remote description. *)
Definition takes_candidates (s : Pc) : bool :=
  bool_decide (state s ≠ CLOSED) && bool_decide (is_Some (remoteDescription s)).

Definition with_candidates (cs : list RTCIceCandidate) (s : Pc) : Pc :=
  {| state := state s; localDescription := localDescription s;
     remoteDescription := remoteDescription s; senders := senders s;
     remoteCandidates := cs |}.

(** The console lines for one ice-candidate message from [from], whose
    connection is [s]. *)
Definition candidate_log (from : key) (s : Pc) : list LogEntry :=
  LogReceived (Some "ice-candidate") ::
  if takes_candidates s then [] else [ErrAddingIce from].

(** The connection of an offerer that sends the tracks [ts]: made, the
    tracks attached, the local offer set. *)
Definition offering (ts : list MediaStreamTrack) : Pc :=
  {| state := HAVE_LOCAL_OFFER;
     localDescription := Some (describe SdpOffer (with_senders ts new));
     remoteDescription := None; senders := ts; remoteCandidates := [] |}.

(** A remote offer can be applied in these states. *)
Definition takes_offer (s : Pc) : bool :=
  match state s with
  | NEW | STABLE | HAVE_REMOTE_OFFER => true
  | _ => false
  end.

(** The connection after a remote offer [d] was applied and answered. *)
Definition reanswered (d : RTCSessionDescription) (s : Pc) : Pc :=
  {| state := STABLE; localDescription := Some (describe SdpAnswer s);
     remoteDescription := Some d; senders := senders s;
     remoteCandidates := remoteCandidates s |}.


(** A local offer can be made and set in these states. *)
Definition can_offer (s : Pc) : bool :=
  match state s with
  | NEW | STABLE | HAVE_LOCAL_OFFER => true
  | _ => false
  end.

(** The connection after [track] was attached and offered. *)
Definition sharing (track : MediaStreamTrack) (s : Pc) : Pc :=
  {| state := HAVE_LOCAL_OFFER;
     localDescription :=
       Some (describe SdpOffer (with_senders (senders s ++ [track]) s));
     remoteDescription := remoteDescription s;
     senders := senders s ++ [track];
     remoteCandidates := remoteCandidates s |}.

End Negotiation.

(** * Vocabulary of the statements *)

Section Vocabulary.
Context `{Platform}.

(** [m] maintains [P], whether it returns or throws. *)
Definition preserves {A} (P : World → Prop) (m : M A) : Prop :=
  ∀ w, P w → P (m w).2.

(** The message names [uid] as its sender. *)
Definition stamped (uid : string) (m : jsobj) : Prop :=
  m !! "from" = Some (VStr uid).

Definition wire_stamped (uid : string) (w : World) : Prop :=
  userId w = uid ∧ Forall (stamped uid) (wire w).

(** The message kinds [handleSignalingMessage] has a case for. *)
Definition recognized : list string :=
  ["user-joined"; "user-left"; "offer"; "answer"; "ice-candidate"].

(** Joins and leaves as the relay reports them. *)
Inductive Membership :=
| UserJoined (userId userName : string)
| UserLeft (userId : string).

Definition member_id (e : Membership) : string :=
  match e with
  | UserJoined id _ => id
  | UserLeft id => id
  end.

Definition membership_message (e : Membership) : Message :=
  match e with
  | UserJoined id name =>
      {| msg_type := Some "user-joined"; msg_userId := Some id;
         msg_userName := Some name; msg_from := None; msg_to := None;
         msg_sdp := None; msg_candidate := None |}
  | UserLeft id =>
      {| msg_type := Some "user-left"; msg_userId := Some id;
         msg_userName := None; msg_from := None; msg_to := None;
         msg_sdp := None; msg_candidate := None |}
  end.

(** Who has joined and not left since. *)
Definition arrive (s : gset string) (e : Membership) : gset string :=
  match e with
  | UserJoined id _ => {[id]} ∪ s
  | UserLeft id => s ∖ {[id]}
  end.

Definition present (evs : list Membership) : gset string := foldl arrive ∅ evs.

Definition directory_is (s : gset string) (w : World) : Prop :=
  NoDup (jsmap_keys (peerConnections w)) ∧
  ∀ k, k ∈ jsmap_keys (peerConnections w) ↔ ∃ id, k = Some id ∧ id ∈ s.

(** The object behind [old] stays what it is, and the object behind
    [new] stays the connection to [uid]. *)
Definition keeps_apart (old new : nat) (o : PcObject) (uid : key) (w : World) : Prop :=
  heap w !! old = Some o ∧
  ∃ s, heap w !! new = Some {| pc_state := s; pc_peer := uid |}.

(** [pc.addTrack] for each track in turn, on the connection state. *)
Fixpoint attachTracks (tracks : list MediaStreamTrack) (s : RTCPeerConnection)
    : option RTCPeerConnection :=
  match tracks with
  | [] => Some s
  | t :: tracks' => s' ← addTrack t s; attachTracks tracks' s'
  end.

(** The world with the state of the connection behind [pc] replaced. *)
Definition with_pc (pc : nat) (s : RTCPeerConnection) (w : World) : World :=
  set_heap (alter (λ o, {| pc_state := s; pc_peer := pc_peer o |}) pc (heap w)) w.

(** The world right after [createPeerConnection uid]. *)
Definition allocated (uid : key) (w : World) : World :=
  set_peerConnections (jsmap_set uid (length (heap w)) (peerConnections w))
    (set_heap (heap w ++ [{| pc_state := newRTCPeerConnection; pc_peer := uid |}]) w).

(** The platform rejects the description, or there is none to apply. *)
Definition rejects (sdp : option RTCSessionDescription) (s : RTCPeerConnection) : Prop :=
  match sdp with
  | Some d => setRemoteDescription d s = None
  | None => True
  end.

Definition candidate_message (from to : key) (c : RTCIceCandidate) : Message :=
  {| msg_type := Some "ice-candidate"; msg_userId := None; msg_userName := None;
     msg_from := from; msg_to := to; msg_sdp := None; msg_candidate := Some c |}.

(** [m] returns normally from every state. *)
Definition returns {A} (m : M A) : Prop :=
  ∀ w, ∃ a w', m w = (Normal a, w').

(** Events whose handlers make every call that can fail inside a [try]
    whose [catch] returns: all but the user-joined and offer messages,
    which attach the local tracks before their [try]; a frame that does
    not parse; [ontrack], which calls the page's callback outside any
    [try]; and [initialize], whose [catch] rejects the promise. *)
Definition guarded (e : Event) : Prop :=
  match e with
  | EMessage message =>
      msg_type message ≠ Some "user-joined" ∧ msg_type message ≠ Some "offer"
  | EInitialize _ | EUnparsed | ETrack _ _ _ => False
  | _ => True
  end.


(** The state of a connection object after [pc.close()]. *)
Definition closed (o : PcObject) : PcObject :=
  {| pc_state := closePeerConnection (pc_state o); pc_peer := pc_peer o |}.

(** The heap is [h] followed by one more object, a connection to [uid]. *)
Definition one_more (h : list PcObject) (uid : key) (w : World) : Prop :=
  ∃ s, heap w = h ++ [{| pc_state := s; pc_peer := uid |}].

(** The channel is not open and holds what it held. *)
Definition silent (sent : list jsobj) (w : World) : Prop :=
  ws w ≠ Some OPEN ∧ wire w = sent.

(** The wire format of the messages a client sends, by kind: what each
    carries besides [from]. *)
Definition conforms (uid uname : string) (m : jsobj) : Prop :=
  ∃ t, m !! "type" = Some (VStr t) ∧
    ((t = "join" ∧ m !! "userId" = Some (VStr uid) ∧
      m !! "userName" = Some (VStr uname)) ∨
     (t = "leave" ∧ m !! "userId" = Some (VStr uid)) ∨
     (t = "offer" ∧ ∃ d, m !! "sdp" = Some (VDesc d)) ∨
     (t = "answer" ∧ ∃ d, m !! "sdp" = Some (VDesc d)) ∨
     (t = "ice-candidate" ∧ ∃ c, m !! "candidate" = Some (VCand c)) ∨
     (t = "media-state-change" ∧ m !! "userId" = Some (VStr uid) ∧
      (∃ b, m !! "isMuted" = Some (VBool b)) ∧
      (∃ b, m !! "isVideoOff" = Some (VBool b))) ∨
     (t = "screen-share-started" ∧ m !! "userId" = Some (VStr uid)) ∨
     (t = "screen-share-stopped" ∧ m !! "userId" = Some (VStr uid))).

Definition wire_conforms (uid uname : string) (w : World) : Prop :=
  userId w = uid ∧ userName w = uname ∧ Forall (conforms uid uname) (wire w).

(** The join announcement of user [uid], named [uname]. *)
Definition join_message (uid uname : string) : jsobj :=
  <["from" := VStr uid]> (<["userName" := VStr uname]>
    (<["userId" := VStr uid]> (<["type" := VStr "join"]> ∅))).

(** If anything was sent, the join announcement was sent first; and an
    open channel has been announced on. *)
Definition announced (uid uname : string) (w : World) : Prop :=
  userId w = uid ∧ userName w = uname ∧
  (ws w = Some OPEN → wire w ≠ []) ∧
  (wire w = [] ∨ head (wire w) = Some (join_message uid uname)).

(** The object behind [pc] is a connection made for [uid]. *)
Definition made_for (pc : nat) (uid : key) (w : World) : Prop :=
  ∃ s, heap w !! pc = Some {| pc_state := s; pc_peer := uid |}.

(** The message [onicecandidate] sends for candidate [c] of a connection
    made for [uid]. *)
Definition candidate_signal (self : string) (uid : key) (c : RTCIceCandidate) : jsobj :=
  <["from" := VStr self]>
    (prop "candidate" (Some (VCand c))
    (prop "to" (VKey uid)
    (prop "type" (Some (VStr "ice-candidate")) ∅))).

(** The map is well formed: no participant occurs twice, no two
    participants share a connection object, and every reference is to an
    object that exists. *)
Definition directory_wf (w : World) : Prop :=
  NoDup (jsmap_keys (peerConnections w)) ∧
  NoDup (peerConnections w).*2 ∧
  Forall (λ pc, pc < length (heap w)) (peerConnections w).*2.

(** [pc.close()] on the objects behind the references of [l], in order. *)
Definition close_all (l : list (key * nat)) (h : list PcObject) : list PcObject :=
  foldl (λ h e, alter closed e.2 h) h l.

(** The leave notice of user [uid]. *)
Definition leave_message (uid : string) : jsobj :=
  <["from" := VStr uid]> (<["userId" := VStr uid]> (<["type" := VStr "leave"]> ∅)).

(** What [sendSignal] adds to the channel in state [w]. *)
Definition transmitted (w : World) (ms : list jsobj) : list jsobj :=
  if bool_decide (ws w = Some OPEN) then ms else [].

(** No connection in the map sends [track]. *)
Definition unshared (track : MediaStreamTrack) (w : World) : Prop :=
  Forall (λ e : key * nat,
            ∃ o, heap w !! e.2 = Some o ∧ track ∉ getSenders (pc_state o))
         (peerConnections w).

Definition screen_share_stopped (uid : string) : jsobj :=
  <["from" := VStr uid]>
    (<["userId" := VStr uid]> (<["type" := VStr "screen-share-stopped"]> ∅)).

(** The offer and answer messages, as sent by user [self] to [uid]. *)
Definition offer_message (self : string) (uid : key) (d : RTCSessionDescription) : jsobj :=
  <["from" := VStr self]>
    (prop "sdp" (Some (VDesc d))
    (prop "to" (VKey uid)
    (prop "type" (Some (VStr "offer")) ∅))).

Definition answer_message (self : string) (uid : key) (d : RTCSessionDescription) : jsobj :=
  <["from" := VStr self]>
    (prop "sdp" (Some (VDesc d))
    (prop "to" (VKey uid)
    (prop "type" (Some (VStr "answer")) ∅))).

Definition screen_share_started (uid : string) : jsobj :=
  <["from" := VStr uid]>
    (<["userId" := VStr uid]> (<["type" := VStr "screen-share-started"]> ∅)).

End Vocabulary.

(** Screen sharing on the negotiation state machine. *)
Section SharingVocabulary.
Import Negotiation.

(** Every connection in the map can take [track] and make an offer. *)
Definition ready_to_share (track : MediaStreamTrack) (l : list (key * nat))
    (h : list PcObject) : Prop :=
  Forall (λ e : key * nat,
            ∃ o, h !! e.2 = Some o ∧ can_offer (pc_state o) = true ∧
                 track ∉ senders (pc_state o)) l.

(** The renegotiation offer for the connection of entry [e]. *)
Definition share_offer (self : string) (track : MediaStreamTrack)
    (h : list PcObject) (e : key * nat) : option jsobj :=
  (λ o : PcObject,
     offer_message self e.1
       (describe SdpOffer
          (with_senders (senders (pc_state o) ++ [track]) (pc_state o))))
    <$> h !! e.2.

Definition share_all (track : MediaStreamTrack) (l : list (key * nat))
    (h : list PcObject) : list PcObject :=
  foldl (λ h e, alter (λ o, {| pc_state := sharing track (pc_state o);
                               pc_peer := pc_peer o |}) e.2 h) h l.

End SharingVocabulary.

(** Stopping a screen share on the negotiation state machine. *)
Section UnsharingVocabulary.
Import Negotiation.

(** The connection after [track] was detached and a new offer made. *)
Definition unsharing (track : MediaStreamTrack) (s : Pc) : Pc :=
  {| state := HAVE_LOCAL_OFFER;
     localDescription :=
       Some (describe SdpOffer
               (with_senders (filter (λ t, t ≠ track) (senders s)) s));
     remoteDescription := remoteDescription s;
     senders := filter (λ t, t ≠ track) (senders s);
     remoteCandidates := remoteCandidates s |}.

(** Every connection in the map sends [track] and can make an offer. *)
Definition ready_to_unshare (track : MediaStreamTrack) (l : list (key * nat))
    (h : list PcObject) : Prop :=
  Forall (λ e : key * nat,
            ∃ o, h !! e.2 = Some o ∧ can_offer (pc_state o) = true ∧
                 track ∈ senders (pc_state o)) l.

Definition unshare_offer (self : string) (track : MediaStreamTrack)
    (h : list PcObject) (e : key * nat) : option jsobj :=
  (λ o : PcObject,
     offer_message self e.1
       (describe SdpOffer
          (with_senders (filter (λ t, t ≠ track) (senders (pc_state o)))
             (pc_state o))))
    <$> h !! e.2.

Definition unshare_all (track : MediaStreamTrack) (l : list (key * nat))
    (h : list PcObject) : list PcObject :=
  foldl (λ h e, alter (λ o, {| pc_state := unsharing track (pc_state o);
                               pc_peer := pc_peer o |}) e.2 h) h l.

(** The offers that restore the track lists the connections had in [h]. *)
Definition restore_offer (self : string) (h : list PcObject) (e : key * nat)
    : option jsobj :=
  (λ o : PcObject, offer_message self e.1 (describe SdpOffer (pc_state o)))
    <$> h !! e.2.

End UnsharingVocabulary.

(** ** A meeting of three *)

Module Meeting.
Import Negotiation.

Definition mic : MediaStreamTrack := {| track_id := "mic"; track_kind := "audio" |}.
Definition cam : MediaStreamTrack := {| track_id := "cam"; track_kind := "video" |}.

(** Alice, "u1", with microphone and camera, her signaling channel open. *)
Definition alice : World :=
  set_ws (Some OPEN) (constructor "m1" "u1" "Alice" (Some [mic; cam])).

Definition bob_joined : Message :=
  {| msg_type := Some "user-joined"; msg_userId := Some "u2";
     msg_userName := Some "Bob"; msg_from := None; msg_to := None;
     msg_sdp := None; msg_candidate := None |}.

Definition remote_offer : RTCSessionDescription :=
  {| sdp_type := SdpOffer; sdp_text := "mic;cam" |}.
Definition remote_answer : RTCSessionDescription :=
  {| sdp_type := SdpAnswer; sdp_text := "mic;cam" |}.

Definition offer_from (from : string) : Message :=
  {| msg_type := Some "offer"; msg_userId := None; msg_userName := None;
     msg_from := Some from; msg_to := Some "u1";
     msg_sdp := Some remote_offer; msg_candidate := None |}.

Definition answer_from (from : string) : Message :=
  {| msg_type := Some "answer"; msg_userId := None; msg_userName := None;
     msg_from := Some from; msg_to := Some "u1";
     msg_sdp := Some remote_answer; msg_candidate := None |}.

Definition host1 : RTCIceCandidate :=
  {| cand_candidate := "candidate:1 1 udp 2122260223 192.0.2.1 50000 typ host";
     cand_sdpMid := Some "0"; cand_sdpMLineIndex := Some 0 |}.
Definition host2 : RTCIceCandidate :=
  {| cand_candidate := "candidate:2 1 udp 2122194687 192.0.2.1 50001 typ host";
     cand_sdpMid := Some "1"; cand_sdpMLineIndex := Some 1 |}.

Definition candidate_from (from : string) (c : RTCIceCandidate) : Message :=
  candidate_message (Some from) (Some "u1") c.

(** What can be seen of a participant's connection. *)
Definition view (uid : string) (w : World)
    : option (State * option RTCSessionDescription * list RTCIceCandidate) :=
  (λ s : Pc, (state s, remoteDescription s, remoteCandidates s))
    <$> connection (Some uid) w.

Definition comings_and_goings : list Membership :=
  [UserJoined "u2" "Bob"; UserJoined "u3" "Eve"; UserLeft "u2";
   UserJoined "u3" "Eve"; UserLeft "u4"].


(** A kind of the wire format that the dispatcher has no case for. *)
Definition media_state_change : Message :=
  {| msg_type := Some "media-state-change"; msg_userId := Some "u2";
     msg_userName := None; msg_from := Some "u2"; msg_to := None;
     msg_sdp := None; msg_candidate := None |}.

(** Bob is connected; the relay announces him once more. *)
Definition with_bob : World := run [EMessage bob_joined] alice.

Definition bobs_first : PcObject :=
  {| pc_state :=
       {| state := HAVE_LOCAL_OFFER;
          localDescription := Some {| sdp_type := SdpOffer; sdp_text := "mic;cam" |};
          remoteDescription := None; senders := [mic; cam];
          remoteCandidates := [] |};
     pc_peer := Some "u2" |}.

(** Bob and Eve are connected; Eve's connection is STABLE. *)
Definition with_both : World :=
  run [EMessage bob_joined; EMessage (offer_from "u3")] alice.

Definition eves : PcObject :=
  {| pc_state :=
       {| state := STABLE;
          localDescription := Some {| sdp_type := SdpAnswer; sdp_text := "mic;cam" |};
          remoteDescription := Some remote_offer; senders := [mic; cam];
          remoteCandidates := [] |};
     pc_peer := Some "u3" |}.

(** A payload that claims to come from somebody else. *)
Definition spoofed : jsobj :=
  <["from" := VStr "u9"]> (<["to" := VStr "u2"]> (<["type" := VStr "offer"]> ∅)).

(** Bob leaves. *)
Definition bob_left : Message :=
  {| msg_type := Some "user-left"; msg_userId := Some "u2";
     msg_userName := None; msg_from := None; msg_to := None;
     msg_sdp := None; msg_candidate := None |}.

(** A user-joined message that names nobody. *)
Definition nobody_joined : Message :=
  {| msg_type := Some "user-joined"; msg_userId := None;
     msg_userName := None; msg_from := None; msg_to := None;
     msg_sdp := None; msg_candidate := None |}.

Definition screen : MediaStreamTrack := {| track_id := "screen"; track_kind := "video" |}.



(** The relay's address, as the page builds it. *)
Definition signaling_url : string := "wss://api.example.org/ws/meeting/m1".

(** Alice before [initialize]. *)
Definition alice_offline : World := constructor "m1" "u1" "Alice" (Some [mic; cam]).

(** Things that happen while the socket is still connecting, and after. *)
Definition before_open : list Event :=
  [EInitialize signaling_url; EMessage bob_joined; ENotifyMediaStateChange true false;
   EAddScreenShareTrack screen; EWsClose; EClose].

End Meeting.

(** * Properties *)

(** ** The map *)

Section JsMapFacts.
Context {V : Type}.
Implicit Types (m : list (key * V)) (k : key) (v : V).

Lemma jsmap_get_set_eq m k v : jsmap_get k (jsmap_set k v m) = Some v.
Proof.
  induction m as [|[k' v'] m IH]; simpl.
  - by rewrite decide_True.
  - destruct (decide (k' = k)) as [->|Hne]; simpl.
    + by rewrite decide_True.
    + by rewrite decide_False.
Qed.

Lemma jsmap_get_set_ne m k k' v :
  k ≠ k' → jsmap_get k' (jsmap_set k v m) = jsmap_get k' m.
Proof.
  intros Hne. induction m as [|[k0 v0] m IH]; simpl.
  - by rewrite decide_False.
  - destruct (decide (k0 = k)) as [->|Hk]; simpl.
    + by rewrite !decide_False.
    + destruct (decide (k0 = k')); [done | apply IH].
Qed.

Lemma jsmap_get_delete_eq m k : jsmap_get k (jsmap_delete k m) = None.
Proof.
  induction m as [|[k0 v0] m IH]; simpl; [done|].
  destruct (decide (k0 = k)); simpl; [done|]. by rewrite decide_False.
Qed.

Lemma jsmap_get_delete_ne m k k' :
  k ≠ k' → jsmap_get k' (jsmap_delete k m) = jsmap_get k' m.
Proof.
  intros Hne. induction m as [|[k0 v0] m IH]; simpl; [done|].
  destruct (decide (k0 = k)) as [->|Hk]; simpl.
  - by rewrite decide_False.
  - destruct (decide (k0 = k')); [done | apply IH].
Qed.

Lemma jsmap_get_None m k : jsmap_get k m = None ↔ k ∉ jsmap_keys m.
Proof.
  unfold jsmap_keys. induction m as [|[k0 v0] m IH]; simpl.
  - split; [intros _; apply not_elem_of_nil | done].
  - rewrite not_elem_of_cons. destruct (decide (k0 = k)) as [->|Hk].
    + split; [done | intros [? _]; done].
    + rewrite IH. split; [intros ?; split; [congruence | done] | intros [_ ?]; done].
Qed.

Lemma jsmap_keys_get m k : k ∈ jsmap_keys m ↔ is_Some (jsmap_get k m).
Proof.
  destruct (jsmap_get k m) eqn:E.
  - split; [eauto | intros _].
    destruct (decide (k ∈ jsmap_keys m)) as [|Hn]; [done|].
    apply jsmap_get_None in Hn. congruence.
  - split; [intros Hin | intros [? ?]; done].
    apply jsmap_get_None in E. done.
Qed.

Lemma jsmap_keys_set m k v k' :
  k' ∈ jsmap_keys (jsmap_set k v m) ↔ k' = k ∨ k' ∈ jsmap_keys m.
Proof.
  rewrite !jsmap_keys_get. destruct (decide (k = k')) as [->|Hne].
  - rewrite jsmap_get_set_eq. split; [by left | eauto].
  - rewrite jsmap_get_set_ne by done. split; [by right | intros [->|?]; done].
Qed.

Lemma jsmap_keys_delete m k k' :
  k' ∈ jsmap_keys (jsmap_delete k m) ↔ k' ≠ k ∧ k' ∈ jsmap_keys m.
Proof.
  rewrite !jsmap_keys_get. destruct (decide (k = k')) as [->|Hne].
  - rewrite jsmap_get_delete_eq. split; [intros [? ?]; done | intros [? _]; done].
  - rewrite jsmap_get_delete_ne by done. split; [intros ?; split; [congruence|done] | by intros [_ ?]].
Qed.

(** [set] and [delete] keep the map free of duplicate keys. *)
Lemma jsmap_set_NoDup m k v :
  NoDup (jsmap_keys m) → NoDup (jsmap_keys (jsmap_set k v m)).
Proof.
  unfold jsmap_keys. induction m as [|[k0 v0] m IH]; simpl; intros Hnd.
  - apply NoDup_singleton.
  - apply NoDup_cons in Hnd as [Hnotin Hnd].
    destruct (decide (k0 = k)) as [->|Hk]; simpl.
    + by apply NoDup_cons.
    + apply NoDup_cons. split; [|by apply IH].
      intros Hin. apply (jsmap_keys_set m k v k0) in Hin as [->|Hin]; done.
Qed.

Lemma jsmap_delete_NoDup m k :
  NoDup (jsmap_keys m) → NoDup (jsmap_keys (jsmap_delete k m)).
Proof.
  unfold jsmap_keys. induction m as [|[k0 v0] m IH]; simpl; intros Hnd; [done|].
  apply NoDup_cons in Hnd as [Hnotin Hnd].
  destruct (decide (k0 = k)) as [->|Hk]; simpl; [by apply IH|].
  apply NoDup_cons. split; [|by apply IH].
  intros Hin. apply (jsmap_keys_delete m k k0) in Hin as [_ Hin]. done.
Qed.

End JsMapFacts.

(** ** Reasoning about handlers *)

Section HandlerFacts.
Context `{Platform}.

Lemma preserves_ret {A} P (a : A) : preserves P (ret a).
Proof. by intros w. Qed.

Lemma preserves_mret {A} P (a : A) : preserves P (mret a : M A).
Proof. by intros w. Qed.

Lemma preserves_throw {A} P : preserves P (throw : M A).
Proof. by intros w. Qed.

Lemma preserves_get P : preserves P get.
Proof. by intros w. Qed.

Lemma preserves_bind {A B} P (m : M A) (k : A → M B) :
  preserves P m → (∀ a, preserves P (k a)) → preserves P (m ≫= k).
Proof.
  intros Hm Hk w HP. specialize (Hm w HP).
  unfold mbind, M_bind, bind. destruct (m w) as [[a|] w']; simpl in *; [|done].
  by apply Hk.
Qed.

Lemma preserves_try_catch P (body handler : M unit) :
  preserves P body → preserves P handler → preserves P (try_catch body handler).
Proof.
  intros Hb Hh w HP. specialize (Hb w HP).
  unfold try_catch. destruct (body w) as [[a|] w']; simpl in *; [done|].
  by apply Hh.
Qed.

Lemma preserves_when P (b : bool) (m : M unit) :
  preserves P m → preserves P (when b m).
Proof. destruct b; [done | intros _; apply preserves_ret]. Qed.

Lemma preserves_forEach {A} P (l : list A) (f : A → M unit) :
  (∀ x, preserves P (f x)) → preserves P (forEach l f).
Proof.
  intros Hf. induction l as [|x l IH]; simpl; [apply preserves_ret|].
  apply preserves_bind; [apply Hf | intros _; apply IH].
Qed.

Lemma preserves_modify P (f : World → World) :
  (∀ w, P w → P (f w)) → preserves P (modify f).
Proof. intros Hf w HP. by apply Hf. Qed.

Lemma preserves_log P e :
  (∀ w c, P w → P (set_console c w)) → preserves P (log e).
Proof. intros Hc. apply preserves_modify. intros w. apply Hc. Qed.

Lemma preserves_pcCall P pc op :
  (∀ w o s, P w → heap w !! pc = Some o →
     P (set_heap (<[pc := {| pc_state := s; pc_peer := pc_peer o |}]> (heap w)) w)) →
  preserves P (pcCall pc op).
Proof.
  intros Hh w HP. unfold pcCall.
  destruct (heap w !! pc) as [o|] eqn:Ho; [|done].
  destruct (op (pc_state o)); [|done]. by apply Hh.
Qed.

Lemma preserves_pcQuery {A} P pc (op : RTCPeerConnection → option A) :
  preserves P (pcQuery pc op).
Proof.
  intros w HP. unfold pcQuery.
  destruct (heap w !! pc) as [o|]; [|done]. by destruct (op (pc_state o)).
Qed.

Lemma preserves_closeObject P pc :
  (∀ w h, P w → P (set_heap h w)) → preserves P (closeObject pc).
Proof. intros Hh. apply preserves_modify. intros w. apply Hh. Qed.

(** What [sendSignal] does, in one equation. *)
Lemma sendSignal_eq data w :
  sendSignal data w =
    (Normal tt,
     if bool_decide (ws w = Some OPEN)
     then set_wire (wire w ++ [<["from" := VStr (userId w)]> data]) w
     else w).
Proof.
  unfold sendSignal, mbind, M_bind, bind, get, when.
  by destruct (bool_decide (ws w = Some OPEN)).
Qed.

Lemma preserves_sendSignal P data :
  (∀ w m, P w → m !! "from" = Some (VStr (userId w)) → P (set_wire (wire w ++ [m]) w)) →
  preserves P (sendSignal data).
Proof.
  intros Hs w HP. rewrite sendSignal_eq. simpl.
  destruct (bool_decide _); [|done]. apply Hs; [done|]. apply lookup_insert_eq.
Qed.

Lemma createPeerConnection_eq uid w :
  createPeerConnection uid w =
    (Normal (length (heap w)),
     set_peerConnections (jsmap_set uid (length (heap w)) (peerConnections w))
       (set_heap (heap w ++ [{| pc_state := newRTCPeerConnection; pc_peer := uid |}]) w)).
Proof. reflexivity. Qed.

Lemma preserves_createPeerConnection P uid :
  (∀ w h, P w → P (set_heap h w)) →
  (∀ w m, P w → P (set_peerConnections m w)) →
  preserves P (createPeerConnection uid).
Proof. intros Hh Hm w HP. rewrite createPeerConnection_eq. simpl. by apply Hm, Hh. Qed.

(** Running a handler one statement at a time. *)
Lemma bind_get {B} (k : World → M B) w : (get ≫= k) w = k w w.
Proof. reflexivity. Qed.

Lemma bind_ret {A B} (a : A) (k : A → M B) w : (ret a ≫= k) w = k a w.
Proof. reflexivity. Qed.

Lemma bind_modify {B} f (k : unit → M B) w : (modify f ≫= k) w = k tt (f w).
Proof. reflexivity. Qed.

Lemma bind_log {B} e (k : unit → M B) w :
  (log e ≫= k) w = k tt (set_console (console w ++ [e]) w).
Proof. reflexivity. Qed.

Lemma bind_createPeerConnection {B} uid (k : nat → M B) w :
  (createPeerConnection uid ≫= k) w =
    k (length (heap w))
      (set_peerConnections (jsmap_set uid (length (heap w)) (peerConnections w))
         (set_heap (heap w ++ [{| pc_state := newRTCPeerConnection; pc_peer := uid |}]) w)).
Proof. reflexivity. Qed.

Lemma bind_assoc {A B C} (m : M A) (k : A → M B) (k' : B → M C) w :
  ((m ≫= k) ≫= k') w = (m ≫= λ a, k a ≫= k') w.
Proof.
  unfold mbind, M_bind, bind. by destruct (m w) as [[a|] w'].
Qed.

(** A property that a computation maintains for every value of [f]. *)
Lemma preserves_eq {A B} (f : World → B) (m : M A) w :
  (∀ c, preserves (λ w, f w = c) m) → f (m w).2 = f w.
Proof. intros Hp. by apply (Hp (f w)). Qed.

End HandlerFacts.

(** Breaks a handler down along the combinators above, leaving the
    obligations on the primitive state updates. *)
Ltac preserves_step :=
  lazymatch goal with
  | |- preserves _ (match ?x with _ => _ end) => destruct x
  | |- preserves _ (mbind _ _) => apply preserves_bind; [|intros ?]
  | |- preserves _ (ret _) => apply preserves_ret
  | |- preserves _ (mret _) => apply preserves_mret
  | |- preserves _ throw => apply preserves_throw
  | |- preserves _ get => apply preserves_get
  | |- preserves _ (try_catch _ _) => apply preserves_try_catch
  | |- preserves _ (when _ _) => apply preserves_when
  | |- preserves _ (forEach _ _) => apply preserves_forEach; intros ?
  | |- preserves _ (pcQuery _ _) => apply preserves_pcQuery
  | |- preserves _ (log _) => apply preserves_log
  | |- preserves _ (pcCall _ _) => apply preserves_pcCall
  | |- preserves _ (closeObject _) => apply preserves_closeObject
  | |- preserves _ (sendSignal _) => apply preserves_sendSignal
  | |- preserves _ (createPeerConnection _) => apply preserves_createPeerConnection
  | |- preserves _ (modify _) => apply preserves_modify
  end.

Create HintDb handlers discriminated.
#[global] Hint Unfold react handleSignalingMessage handleUserJoined handleUserLeft
  handleOffer handleAnswer handleIceCandidate applyRemoteDescription negotiate
  answerOffer
  addLocalTracks onicecandidate ontrack addScreenShareTrack hasSender
  removeScreenShareTrack updateLocalStream notifyMediaStateChange initialize
  ws_onmessage ws_onopen ws_onerror ws_onclose close callOnRemoteStream
  assignOnRemoteStream : handlers.

Ltac preserves_handler :=
  repeat first [ preserves_step | progress (autounfold with handlers; cbv zeta) ].

(** ** Outbound messages *)

Section Outbound.
Context `{Platform}.

Lemma wire_stamped_send uid w m :
  wire_stamped uid w → m !! "from" = Some (VStr (userId w)) →
  wire_stamped uid (set_wire (wire w ++ [m]) w).
Proof.
  intros [Hu Hw] Hm. split; [done|]. simpl.
  apply Forall_app. split; [done|]. apply Forall_singleton.
  unfold stamped. by rewrite <- Hu.
Qed.

Lemma react_wire_stamped uid e : preserves (wire_stamped uid) (react e).
Proof.
  destruct e; preserves_handler;
    solve [ done | intros; by apply wire_stamped_send ].
Qed.

Lemma run_wire_stamped uid es w :
  wire_stamped uid w → wire_stamped uid (run es w).
Proof.
  revert w. induction es as [|e es IH]; intros w Hw; [done|].
  apply IH. by apply react_wire_stamped.
Qed.

(** C9. Whatever has happened to a handler since it was constructed,
    every message it has put on the signaling channel names the local
    user as [from]; and a further [sendSignal] keeps it so for any
    payload, also one that brings a [from] of its own, which is
    overwritten. *)
Theorem outbound_from_is_local_user
    (mid uid uname : string) (stream : option (list MediaStreamTrack))
    (es : list Event) (data : jsobj) :
  let w := run es (constructor mid uid uname stream) in
  userId w = uid ∧
  Forall (stamped uid) (wire w) ∧
  Forall (stamped uid) (wire (sendSignal data w).2) ∧
  (ws w = Some OPEN →
   wire (sendSignal data w).2 = wire w ++ [<["from" := VStr uid]> data]).
Proof.
  intros w.
  assert (wire_stamped uid w) as Hw.
  { apply run_wire_stamped. split; [done | apply Forall_nil_2]. }
  destruct Hw as [Hu Hw]. split_and!; [done | done | |].
  - apply (preserves_sendSignal (wire_stamped uid)); [|done].
    intros; by apply wire_stamped_send.
  - intros Hopen. rewrite sendSignal_eq. simpl.
    rewrite bool_decide_eq_true_2 by done. simpl. by rewrite Hu.
Qed.

End Outbound.

(** ** The dispatcher *)

Section Dispatcher.
Context `{Platform}.

(** C8. A message whose type is none of the recognized kinds is logged
    on arrival and otherwise ignored: the handler returns normally and
    the world is the one before with one more [console.log] line, so
    the peer-connection map, the connections and the signaling channel
    are untouched. *)
Theorem unrecognized_type_discarded (message : Message) (w : World) :
  msg_type message ∉ Some <$> recognized →
  handleSignalingMessage message w =
    (Normal tt, set_console (console w ++ [LogReceived (msg_type message)]) w)
  ∧ level (LogReceived (msg_type message)) = LLog.
Proof.
  intros Hty. split; [|done].
  unfold recognized in Hty. simpl in Hty.
  repeat (apply not_elem_of_cons in Hty as [? Hty]).
  unfold handleSignalingMessage. cbv zeta.
  unfold mbind, M_bind, bind, log, modify.
  by rewrite !decide_False.
Qed.

End Dispatcher.

(** ** Shutdown *)

Section Shutdown.
Context `{Platform}.

Lemma forEach_closeObject (l : list (key * nat)) w :
  ∃ h, forEach l (λ e, closeObject e.2) w = (Normal tt, set_heap h w).
Proof.
  revert w. induction l as [|e l IH]; intros w; simpl.
  - exists (heap w). by destruct w.
  - unfold mbind, M_bind, bind, closeObject, modify.
    edestruct IH as [h ->]. by eexists.
Qed.

Lemma close_ok w :
  ∃ w', close w = (Normal tt, w') ∧ peerConnections w' = [] ∧ ws w' = None.
Proof.
  unfold close, mbind, M_bind, bind, log, modify, get.
  edestruct forEach_closeObject as [h ->]. simpl.
  destruct (ws w) eqn:Hws.
  - rewrite sendSignal_eq. simpl. eexists. split; [reflexivity|].
    by destruct (bool_decide (ws w = Some OPEN)).
  - eexists. split; [reflexivity|]. done.
Qed.

(** C6. [close()] never throws, whatever state the handler is in (in
    particular before [initialize] was called, when [this.ws] is still
    [null], or while the socket is still connecting), and it leaves
    the peer-connection map empty; the same holds for a second call
    right after the first. *)
Theorem close_twice_is_safe (w : World) :
  ∃ w1 w2,
    close w = (Normal tt, w1) ∧ peerConnections w1 = [] ∧
    close w1 = (Normal tt, w2) ∧ peerConnections w2 = [].
Proof.
  destruct (close_ok w) as (w1 & H1 & Hm1 & _).
  destruct (close_ok w1) as (w2 & H2 & Hm2 & _).
  by exists w1, w2.
Qed.

End Shutdown.

(** ** The directory under joins and leaves *)

Section Directory.
Context `{Platform}.

Lemma handleUserJoined_peerConnections message w :
  msg_userId message ≠ Some (userId w) →
  peerConnections (handleUserJoined message w).2 =
    jsmap_set (msg_userId message) (length (heap w)) (peerConnections w).
Proof.
  intros Hne. unfold handleUserJoined. cbv zeta.
  rewrite bind_get, decide_False by done.
  rewrite bind_log, bind_createPeerConnection.
  rewrite (preserves_eq peerConnections); [done|].
  intros c. preserves_handler; done.
Qed.


Lemma handleUserLeft_keys message w k :
  k ∈ jsmap_keys (peerConnections (handleUserLeft message w).2) ↔
  k ≠ msg_userId message ∧ k ∈ jsmap_keys (peerConnections w).
Proof.
  unfold handleUserLeft. cbv zeta. rewrite bind_log, bind_get. simpl.
  destruct (jsmap_get (msg_userId message) (peerConnections w)) as [pc|] eqn:Hget.
  - unfold closeObject. rewrite bind_modify. simpl. apply jsmap_keys_delete.
  - simpl. apply jsmap_get_None in Hget.
    split; [intros Hin; split; [by intros ->|done] | by intros [_ ?]].
Qed.

Lemma handleUserLeft_NoDup message w :
  NoDup (jsmap_keys (peerConnections w)) →
  NoDup (jsmap_keys (peerConnections (handleUserLeft message w).2)).
Proof.
  unfold handleUserLeft. cbv zeta. rewrite bind_log, bind_get. simpl.
  destruct (jsmap_get (msg_userId message) (peerConnections w)) as [pc|] eqn:Hget.
  - unfold closeObject. rewrite bind_modify. simpl. apply jsmap_delete_NoDup.
  - done.
Qed.

Lemma react_userId uid e : preserves (λ w, userId w = uid) (react e).
Proof. destruct e; preserves_handler; done. Qed.

Lemma step_membership s w e :
  member_id e ≠ userId w →
  directory_is s w →
  directory_is (arrive s e) (step w (EMessage (membership_message e))).
Proof.
  intros Hself [Hnd Hkeys]. unfold step, react, ws_onmessage, handleSignalingMessage. cbv zeta.
  rewrite bind_log. destruct e as [id name|id]; simpl in *; unfold directory_is.
  - rewrite handleUserJoined_peerConnections by (simpl; congruence). simpl. split.
    + by apply jsmap_set_NoDup.
    + intros k. rewrite jsmap_keys_set, Hkeys. split.
      * intros [->|(id' & -> & Hin)]; [exists id | exists id'];
          (split; [done|]); apply elem_of_union;
          [left; by apply elem_of_singleton | by right].
      * intros (id' & -> & [->%elem_of_singleton|Hin]%elem_of_union); [by left|].
        right. by exists id'.
  - split.
    + by apply handleUserLeft_NoDup.
    + intros k. rewrite handleUserLeft_keys. simpl. rewrite Hkeys. split.
      * intros [Hne (id' & -> & Hin)]. exists id'. split; [done|].
        apply elem_of_difference. split; [done|].
        intros ->%elem_of_singleton. by apply Hne.
      * intros (id' & -> & [Hin Hne]%elem_of_difference). split; [|by exists id'].
        intros [= ->]. by apply Hne, elem_of_singleton.
Qed.

Lemma run_membership evs s w :
  Forall (λ e, member_id e ≠ userId w) evs →
  directory_is s w →
  directory_is (foldl arrive s evs) (run (EMessage ∘ membership_message <$> evs) w).
Proof.
  revert s w. induction evs as [|e evs IH]; intros s w Hself Hdir; [done|].
  apply Forall_cons in Hself as [He Hself]. simpl. apply IH.
  - assert (userId (step w (EMessage (membership_message e))) = userId w) as Hu
      by apply (react_userId (userId w)), eq_refl.
    by rewrite Hu.
  - by apply step_membership.
Qed.

(** C3. After any sequence of user-joined and user-left messages about
    participants other than the local user, delivered to a freshly
    constructed handler, the keys of the peer-connection map are
    exactly the participants that have joined and not left since, and
    no key occurs twice. *)
Theorem directory_matches_membership
    (mid uid uname : string) (stream : option (list MediaStreamTrack))
    (evs : list Membership) :
  Forall (λ e, member_id e ≠ uid) evs →
  let w := run (EMessage ∘ membership_message <$> evs)
               (constructor mid uid uname stream) in
  NoDup (jsmap_keys (peerConnections w)) ∧
  ∀ k, k ∈ jsmap_keys (peerConnections w) ↔ ∃ id, k = Some id ∧ id ∈ present evs.
Proof.
  intros Hself. apply (run_membership evs ∅); [done|].
  split; [apply NoDup_nil_2|]. intros k. simpl. split.
  - intros Hin. by apply elem_of_nil in Hin.
  - intros (id & _ & Hin). set_solver.
Qed.

End Directory.

(** ** A join for a participant that is already connected *)

Section Rejoin.
Context `{Platform}.

Lemma keeps_apart_insert old new o uid w o' s :
  old ≠ new →
  keeps_apart old new o uid w →
  heap w !! new = Some o' →
  keeps_apart old new o uid
    (set_heap (<[new := {| pc_state := s; pc_peer := pc_peer o' |}]> (heap w)) w).
Proof.
  intros Hne [Hold [s' Hnew]] Ho'. split; simpl.
  - by rewrite list_lookup_insert_ne.
  - exists s. rewrite list_lookup_insert_eq by by eapply lookup_lt_Some.
    rewrite Hnew in Ho'. by injection Ho' as <-.
Qed.

Lemma offer_keeps_apart old new o uid :
  old ≠ new →
  preserves (keeps_apart old new o uid)
    (addLocalTracks new ≫= λ _,
       try_catch (negotiate uid new) (log (ErrCreatingOffer uid))).
Proof.
  intros Hne. preserves_handler;
    solve [ done | intros; by apply keeps_apart_insert ].
Qed.

(** C10. A user-joined message for a participant (other than the local
    user) who already has an entry in the peer-connection map replaces
    the entry's connection by a newly constructed one; the connection
    object the entry referred to before is left exactly as it was (so
    it is not closed), and the entry no longer refers to it. *)
Theorem rejoin_overwrites_without_closing
    (message : Message) (w : World) (id : string) (old : nat) (o : PcObject) :
  msg_userId message = Some id →
  id ≠ userId w →
  jsmap_get (Some id) (peerConnections w) = Some old →
  heap w !! old = Some o →
  let w' := (handleUserJoined message w).2 in
  let new := length (heap w) in
  jsmap_get (Some id) (peerConnections w') = Some new ∧
  new ≠ old ∧
  (∃ s, heap w' !! new = Some {| pc_state := s; pc_peer := Some id |}) ∧
  heap w' !! old = Some o ∧
  ∀ k, k ≠ Some id →
       jsmap_get k (peerConnections w') = jsmap_get k (peerConnections w).
Proof.
  intros Hid Hself Hget Hold w' new.
  assert (old < new) as Hlt by by eapply lookup_lt_Some.
  assert (peerConnections w' = jsmap_set (Some id) new (peerConnections w)) as Hpcs.
  { unfold w'. rewrite handleUserJoined_peerConnections; rewrite Hid; [done|congruence]. }
  assert (keeps_apart old new o (Some id) w') as [Hold' Hnew'].
  { unfold w', handleUserJoined. cbv zeta. rewrite Hid.
    rewrite bind_get, decide_False by congruence.
    rewrite bind_log, bind_createPeerConnection.
    apply (offer_keeps_apart old new o (Some id)); [lia|].
    split; simpl.
    - by rewrite lookup_app_l.
    - eexists. rewrite lookup_app_r by done.
      unfold new. by rewrite Nat.sub_diag. }
  split_and!; [| lia | done | done |].
  - rewrite Hpcs. apply jsmap_get_set_eq.
  - intros k Hk. rewrite Hpcs. by apply jsmap_get_set_ne.
Qed.

End Rejoin.

(** ** Running platform calls *)

Section Calls.
Context `{Platform}.

Lemma pcCall_ok pc op w o s :
  heap w !! pc = Some o → op (pc_state o) = Some s →
  pcCall pc op w = (Normal tt, with_pc pc s w).
Proof.
  intros Ho Hop. unfold pcCall, with_pc. rewrite Ho, Hop. do 2 f_equal.
  apply list_eq. intros i. destruct (decide (i = pc)) as [->|Hne].
  - rewrite list_lookup_insert_eq by by eapply lookup_lt_Some.
    by rewrite list_lookup_alter_eq, Ho.
  - by rewrite list_lookup_insert_ne, list_lookup_alter_ne.
Qed.

Lemma pcCall_fail pc op w o :
  heap w !! pc = Some o → op (pc_state o) = None →
  pcCall pc op w = (Throw, w).
Proof. intros Ho Hop. unfold pcCall. by rewrite Ho, Hop. Qed.

Lemma pcQuery_ok {A} pc (op : RTCPeerConnection → option A) w o a :
  heap w !! pc = Some o → op (pc_state o) = Some a →
  pcQuery pc op w = (Normal a, w).
Proof. intros Ho Hop. unfold pcQuery. by rewrite Ho, Hop. Qed.

Lemma bind_ok {A B} (m : M A) (k : A → M B) w a w' :
  m w = (Normal a, w') → (m ≫= k) w = k a w'.
Proof. intros Hm. unfold mbind, M_bind, bind. by rewrite Hm. Qed.

Lemma bind_throw {A B} (m : M A) (k : A → M B) w w' :
  m w = (Throw, w') → (m ≫= k) w = (Throw, w').
Proof. intros Hm. unfold mbind, M_bind, bind. by rewrite Hm. Qed.

Lemma try_catch_ok body handler w w' :
  body w = (Normal tt, w') → try_catch body handler w = (Normal tt, w').
Proof. intros Hb. unfold try_catch. by rewrite Hb. Qed.

Lemma try_catch_throw body handler w w' :
  body w = (Throw, w') → try_catch body handler w = handler w'.
Proof. intros Hb. unfold try_catch. by rewrite Hb. Qed.

Lemma with_pc_lookup pc s w o :
  heap w !! pc = Some o →
  heap (with_pc pc s w) !! pc = Some {| pc_state := s; pc_peer := pc_peer o |}.
Proof. intros Ho. unfold with_pc. simpl. by rewrite list_lookup_alter_eq, Ho. Qed.

Lemma with_pc_with_pc pc s s' w :
  with_pc pc s' (with_pc pc s w) = with_pc pc s' w.
Proof.
  unfold with_pc, set_heap. simpl. by rewrite list_alter_alter_eq.
Qed.

Lemma with_pc_id pc w o :
  heap w !! pc = Some o → with_pc pc (pc_state o) w = w.
Proof.
  intros Ho. unfold with_pc.
  rewrite (list_alter_ext _ id (heap w) (heap w) pc); [|  | done].
  - rewrite list_alter_id by done. by destruct w.
  - intros o' Ho'. rewrite Ho in Ho'. injection Ho' as <-. by destruct o.
Qed.

Lemma forEach_addTrack tracks pc w o s :
  heap w !! pc = Some o →
  attachTracks tracks (pc_state o) = Some s →
  forEach tracks (λ track, pcCall pc (addTrack track)) w = (Normal tt, with_pc pc s w).
Proof.
  revert w o. induction tracks as [|t tracks IH]; intros w o Ho Hat; simpl in *.
  - injection Hat as <-. by rewrite (with_pc_id pc w o).
  - destruct (addTrack t (pc_state o)) as [s1|] eqn:Hadd; [|done]. simpl in Hat.
    rewrite (bind_ok _ _ w tt (with_pc pc s1 w)) by by eapply pcCall_ok.
    erewrite IH; [by rewrite with_pc_with_pc | by apply with_pc_lookup | done].
Qed.

Lemma addLocalTracks_ok pc w o s :
  heap w !! pc = Some o →
  attachTracks (default [] (localStream w)) (pc_state o) = Some s →
  addLocalTracks pc w = (Normal tt, with_pc pc s w).
Proof.
  intros Ho Hat. unfold addLocalTracks. rewrite bind_get.
  destruct (localStream w) as [tracks|]; simpl in Hat.
  - by eapply forEach_addTrack.
  - injection Hat as <-. by rewrite (with_pc_id pc w o).
Qed.

Lemma negotiate_eq uid pc w o offer s :
  heap w !! pc = Some o →
  createOffer (pc_state o) = Some offer →
  setLocalDescription offer (pc_state o) = Some s →
  negotiate uid pc w =
    sendSignal (prop "sdp" (Some (VDesc offer))
               (prop "to" (VKey uid)
               (prop "type" (Some (VStr "offer")) ∅)))
      (with_pc pc s w).
Proof.
  intros Ho Hoffer Hlocal. unfold negotiate.
  rewrite (bind_ok _ _ w offer w) by by eapply pcQuery_ok.
  by rewrite (bind_ok _ _ w tt (with_pc pc s w)) by by eapply pcCall_ok.
Qed.

Lemma answerOffer_eq from pc w o offer s1 answer s2 :
  heap w !! pc = Some o →
  setRemoteDescription offer (pc_state o) = Some s1 →
  createAnswer s1 = Some answer →
  setLocalDescription answer s1 = Some s2 →
  answerOffer from pc (Some offer) w =
    sendSignal (prop "sdp" (Some (VDesc answer))
               (prop "to" (VKey from)
               (prop "type" (Some (VStr "answer")) ∅)))
      (with_pc pc s2 w).
Proof.
  intros Ho Hremote Hanswer Hlocal. unfold answerOffer, applyRemoteDescription.
  rewrite (bind_ok _ _ w tt (with_pc pc s1 w)) by by eapply pcCall_ok.
  pose proof (with_pc_lookup pc s1 w o Ho) as Ho1.
  rewrite (bind_ok _ _ _ answer (with_pc pc s1 w)) by by eapply pcQuery_ok.
  rewrite (bind_ok _ _ _ tt (with_pc pc s2 (with_pc pc s1 w))) by by eapply pcCall_ok.
  by rewrite with_pc_with_pc.
Qed.

(** A description the platform rejects, or none at all. *)
Lemma applyRemoteDescription_fail pc sdp w o :
  heap w !! pc = Some o →
  match sdp with
  | Some d => setRemoteDescription d (pc_state o) = None
  | None => True
  end →
  applyRemoteDescription pc sdp w = (Throw, w).
Proof.
  intros Ho Hrej. unfold applyRemoteDescription.
  destruct sdp as [d|]; [by eapply pcCall_fail | done].
Qed.

End Calls.

(** ** The negotiation scenarios *)

Section Scenarios.
Import Negotiation.

(** A stream's tracks, each held once, all attach to an open connection. *)
Lemma attachTracks_NoDup (ts : list MediaStreamTrack) (pc : Pc) :
  state pc ≠ CLOSED → NoDup (senders pc ++ ts) →
  attachTracks ts pc = Some (with_senders (senders pc ++ ts) pc).
Proof.
  revert pc. induction ts as [|t ts IH]; intros pc Hopen Hnd; simpl.
  - rewrite app_nil_r. by destruct pc.
  - unfold add_track. rewrite decide_False by done.
    apply NoDup_app in Hnd as (Hs & Hdisj & Hts).
    rewrite decide_False by (intros Hin; apply (Hdisj t Hin); left).
    simpl. rewrite IH; simpl; [by rewrite <- app_assoc | done |].
    rewrite <- app_assoc. simpl. apply NoDup_app. split_and!; [done | | done].
    intros x Hx. by apply Hdisj.
Qed.

Lemma attachTracks_new (ts : list MediaStreamTrack) :
  NoDup ts → attachTracks ts new = Some (with_senders ts new).
Proof. intros Hnd. by rewrite attachTracks_NoDup. Qed.

(** C4. Self id "u1", the signaling channel open, no connection for
    "u2": the message {type:"user-joined", userId:"u2", userName:"Bob"}
    is handled without a fault, puts exactly one message on the
    channel, {type:"offer", to:"u2", from:"u1", sdp: an offer}, and
    leaves a connection for "u2" in the map in state HAVE_LOCAL_OFFER. *)
Theorem offerer_scenario (message : Message) (w : World) :
  msg_type message = Some "user-joined" →
  msg_userId message = Some "u2" →
  msg_userName message = Some "Bob" →
  userId w = "u1" →
  ws w = Some OPEN →
  jsmap_get (Some "u2") (peerConnections w) = None →
  NoDup (default [] (localStream w)) →
  ∃ w' offer s,
    handleSignalingMessage message w = (Normal tt, w') ∧
    wire w' = wire w ++
      [<["from" := VStr "u1"]> (<["sdp" := VDesc offer]>
         (<["to" := VStr "u2"]> (<["type" := VStr "offer"]> ∅)))] ∧
    sdp_type offer = SdpOffer ∧
    connection (Some "u2") w' = Some s ∧
    state s = HAVE_LOCAL_OFFER.
Proof.
  intros Hty Hid Hname Hself Hopen Hnone Hnd.
  unfold handleSignalingMessage. cbv zeta. rewrite bind_log, Hty.
  rewrite decide_True by done.
  unfold handleUserJoined. cbv zeta. rewrite bind_get, Hid.
  rewrite decide_False by (simpl; rewrite Hself; discriminate).
  rewrite bind_log, bind_createPeerConnection. simpl heap. simpl peerConnections.
  set (pc := length (heap w)).
  match goal with |- context [ (addLocalTracks pc ≫= _) ?w0 ] => set (w1 := w0) end.
  assert (heap w1 !! pc = Some {| pc_state := new; pc_peer := Some "u2" |}) as Hpc
    by by apply list_lookup_middle.
  erewrite bind_ok;
    [| eapply addLocalTracks_ok; [exact Hpc | by apply attachTracks_new] ].
  set (ts := default [] (localStream w1)).
  set (s1 := with_senders ts new : @RTCPeerConnection platform).
  set (w2 := with_pc pc s1 w1).
  assert (heap w2 !! pc = Some {| pc_state := s1; pc_peer := Some "u2" |}) as Hpc2
    by by apply (with_pc_lookup pc _ w1 _ Hpc).
  erewrite try_catch_ok;
    [| erewrite negotiate_eq; [apply sendSignal_eq | exact Hpc2 | done | done] ].
  rewrite bool_decide_eq_true_2 by done.
  eexists _, (describe SdpOffer s1), _.
  split; [reflexivity|]. split_and!.
  - simpl. by rewrite Hself.
  - done.
  - unfold connection. simpl. rewrite jsmap_get_set_eq. simpl.
    rewrite !list_lookup_alter_eq.
    by rewrite (list_lookup_middle (heap w) [] _ pc).
  - done.
Qed.

(** C5. Self id "u1", the signaling channel open, no connection for
    "u3": the message {type:"offer", from:"u3", to:"u1", sdp: an offer}
    is handled without a fault, creates a connection for "u3", puts
    exactly one message on the channel, {type:"answer", to:"u3",
    from:"u1", sdp: an answer}, and leaves the connection in state
    STABLE with the offer as its remote description. *)
Theorem answerer_scenario (message : Message) (w : World)
    (offer : RTCSessionDescription) :
  msg_type message = Some "offer" →
  msg_from message = Some "u3" →
  msg_to message = Some "u1" →
  msg_sdp message = Some offer →
  sdp_type offer = SdpOffer →
  userId w = "u1" →
  ws w = Some OPEN →
  jsmap_get (Some "u3") (peerConnections w) = None →
  NoDup (default [] (localStream w)) →
  ∃ w' answer s,
    handleSignalingMessage message w = (Normal tt, w') ∧
    wire w' = wire w ++
      [<["from" := VStr "u1"]> (<["sdp" := VDesc answer]>
         (<["to" := VStr "u3"]> (<["type" := VStr "answer"]> ∅)))] ∧
    sdp_type answer = SdpAnswer ∧
    jsmap_get (Some "u3") (peerConnections w') = Some (length (heap w)) ∧
    connection (Some "u3") w' = Some s ∧
    state s = STABLE ∧
    remoteDescription s = Some offer.
Proof.
  intros Hty Hfrom Hto Hsdp Hoffer Hself Hopen Hnone Hnd.
  unfold handleSignalingMessage. cbv zeta. rewrite bind_log, Hty.
  rewrite decide_False, decide_False, decide_True by done.
  unfold handleOffer. cbv zeta. rewrite bind_log, bind_get, Hfrom, Hsdp.
  simpl peerConnections. rewrite Hnone.
  rewrite bind_assoc, bind_createPeerConnection. simpl heap. simpl peerConnections.
  set (pc := length (heap w)).
  match goal with |- context [ ((addLocalTracks pc ≫= _) ≫= _) ?w0 ] => set (w1 := w0) end.
  assert (heap w1 !! pc = Some {| pc_state := new; pc_peer := Some "u3" |}) as Hpc
    by by apply list_lookup_middle.
  rewrite bind_assoc.
  erewrite bind_ok;
    [| eapply addLocalTracks_ok; [exact Hpc | by apply attachTracks_new] ].
  rewrite bind_ret.
  set (ts := default [] (localStream w1)).
  set (s1 := with_senders ts new : @RTCPeerConnection platform).
  set (w2 := with_pc pc s1 w1).
  assert (heap w2 !! pc = Some {| pc_state := s1; pc_peer := Some "u3" |}) as Hpc2
    by by apply (with_pc_lookup pc _ w1 _ Hpc).
  erewrite try_catch_ok;
    [| erewrite answerOffer_eq;
       [apply sendSignal_eq | exact Hpc2
       | simpl; unfold set_remote; simpl; by rewrite Hoffer | done | done] ].
  rewrite bool_decide_eq_true_2 by done.
  eexists _, (describe SdpAnswer s1), _.
  split; [reflexivity|]. split_and!.
  - simpl. by rewrite Hself.
  - done.
  - simpl. by rewrite jsmap_get_set_eq.
  - unfold connection. simpl. rewrite jsmap_get_set_eq. simpl.
    rewrite !list_lookup_alter_eq.
    by rewrite (list_lookup_middle (heap w) [] _ pc).
  - done.
  - done.
Qed.

End Scenarios.

(** ** Answers *)

Section Answers.
Import Negotiation.




End Answers.

(** ** Failed applications *)

Section Containment.
Context `{Platform}.

Lemma handleOffer_rejected_known message w pc o :
  jsmap_get (msg_from message) (peerConnections w) = Some pc →
  heap w !! pc = Some o →
  rejects (msg_sdp message) (pc_state o) →
  handleOffer message w =
    (Normal tt,
     set_console (console w ++ [LogOffer (msg_from message);
                                ErrHandlingOffer (msg_from message)]) w).
Proof.
  intros Hget Ho Hrej. unfold handleOffer. cbv zeta.
  rewrite bind_log, bind_get.
  change (peerConnections (set_console ?c w)) with (peerConnections w).
  rewrite Hget, bind_ret.
  erewrite try_catch_throw;
    [| unfold answerOffer; eapply bind_throw; by eapply applyRemoteDescription_fail ].
  unfold log, modify. simpl. by rewrite <- app_assoc.
Qed.

Lemma handleOffer_rejected_unknown message w s :
  jsmap_get (msg_from message) (peerConnections w) = None →
  attachTracks (default [] (localStream w)) newRTCPeerConnection = Some s →
  rejects (msg_sdp message) s →
  handleOffer message w =
    (Normal tt,
     set_console (console w ++ [LogOffer (msg_from message);
                                ErrHandlingOffer (msg_from message)])
       (with_pc (length (heap w)) s (allocated (msg_from message) w))).
Proof.
  intros Hget Hat Hrej. unfold handleOffer. cbv zeta.
  rewrite bind_log, bind_get.
  change (peerConnections (set_console ?c w)) with (peerConnections w).
  rewrite Hget, bind_assoc, bind_createPeerConnection, bind_assoc.
  match goal with |- context [ (addLocalTracks _ ≫= _) ?w0 ] => set (w1 := w0) end.
  change (heap (set_console ?c w)) with (heap w) in *.
  assert (heap w1 !! length (heap w) =
            Some {| pc_state := newRTCPeerConnection; pc_peer := msg_from message |})
    as Hpc by by apply list_lookup_middle.
  erewrite bind_ok; [| by eapply addLocalTracks_ok ].
  rewrite bind_ret.
  erewrite try_catch_throw;
    [| unfold answerOffer; eapply bind_throw;
       eapply applyRemoteDescription_fail; [by eapply with_pc_lookup | done] ].
  unfold log, modify, with_pc, allocated, w1. simpl. by rewrite <- app_assoc.
Qed.

(** C2, as the code has it.  When the platform rejects the remote
    description (or the candidate) of an offer, answer or ice-candidate
    message from participant [from], the handler logs the failure with
    [console.error] and returns normally.  It removes nothing: if
    [from] had a connection, the world is the one before but for the
    console; if an offer came from a participant without one, the
    connection created for it stays in the map.  Nothing is sent, and
    every other entry of the map and every connection object that
    existed before are as they were. *)
Theorem failed_application_is_contained (message : Message) (w : World) :
  let from := msg_from message in
  (∀ pc o,
     jsmap_get from (peerConnections w) = Some pc →
     heap w !! pc = Some o →
     (rejects (msg_sdp message) (pc_state o) →
      handleOffer message w =
        (Normal tt,
         set_console (console w ++ [LogOffer from; ErrHandlingOffer from]) w)) ∧
     (rejects (msg_sdp message) (pc_state o) →
      handleAnswer message w =
        (Normal tt,
         set_console (console w ++ [LogAnswer from; ErrSettingRemote from]) w)) ∧
     (∀ c, msg_candidate message = Some c →
           addIceCandidate c (pc_state o) = None →
           handleIceCandidate message w =
             (Normal tt, set_console (console w ++ [ErrAddingIce from]) w))) ∧
  (∀ s,
     jsmap_get from (peerConnections w) = None →
     attachTracks (default [] (localStream w)) newRTCPeerConnection = Some s →
     rejects (msg_sdp message) s →
     ∃ w',
       handleOffer message w = (Normal tt, w') ∧
       console w' = console w ++ [LogOffer from; ErrHandlingOffer from] ∧
       level (ErrHandlingOffer from) = LError ∧
       wire w' = wire w ∧
       connection from w' = Some s ∧
       (∀ k, k ≠ from →
             jsmap_get k (peerConnections w') = jsmap_get k (peerConnections w)) ∧
       (∀ r, r < length (heap w) → heap w' !! r = heap w !! r)).
Proof.
  intros from. split.
  - intros pc o Hget Ho. split_and!.
    + intros Hrej. by eapply handleOffer_rejected_known.
    + intros Hrej. unfold handleAnswer. cbv zeta. fold from.
      rewrite bind_log, bind_get.
      change (peerConnections (set_console ?c w)) with (peerConnections w).
      rewrite Hget.
      erewrite try_catch_throw; [| by eapply applyRemoteDescription_fail ].
      unfold log, modify. simpl. by rewrite <- app_assoc.
    + intros c Hc Hrej. unfold handleIceCandidate. cbv zeta. fold from.
      rewrite bind_get, Hget, Hc.
      erewrite try_catch_throw; [| by eapply pcCall_fail ]. done.
  - intros s Hget Hat Hrej. eexists. split.
    { by apply handleOffer_rejected_unknown. }
    split_and!; try done.
    + unfold connection. simpl. rewrite jsmap_get_set_eq. simpl.
      rewrite list_lookup_alter_eq.
      by rewrite (list_lookup_middle (heap w) [] _ (length (heap w))).
    + intros k Hk. simpl. by apply jsmap_get_set_ne.
    + intros r Hr. simpl. rewrite list_lookup_alter_ne by lia.
      by apply lookup_app_l.
Qed.

End Containment.

(** ** Remote ICE candidates *)

Section Candidates.
Import Negotiation.

Lemma add_ice_candidate_takes c (s : Pc) :
  add_ice_candidate c s =
    if takes_candidates s
    then Some (with_candidates (remoteCandidates s ++ [c]) s)
    else None.
Proof.
  unfold add_ice_candidate, takes_candidates, with_candidates.
  destruct s as [st ld rd sn rc]. simpl. by destruct st, rd.
Qed.

Lemma takes_candidates_with_candidates cs (s : Pc) :
  takes_candidates (with_candidates cs s) = takes_candidates s.
Proof. reflexivity. Qed.

Lemma step_candidate from to c (w : World) :
  let w' := step w (EMessage (candidate_message from to c)) in
  peerConnections w' = peerConnections w ∧
  wire w' = wire w ∧
  match connection from w with
  | Some s =>
      connection from w' =
        Some (if takes_candidates s
              then with_candidates (remoteCandidates s ++ [c]) s else s) ∧
      console w' = console w ++ candidate_log from s
  | None => heap w' = heap w
  end.
Proof.
  unfold step, react, ws_onmessage, handleSignalingMessage. cbv zeta. rewrite bind_log.
  simpl msg_type. rewrite !decide_False, decide_True by done.
  unfold handleIceCandidate. cbv zeta. rewrite bind_get.
  set (w0 := set_console _ w).
  change (msg_from (candidate_message from to c)) with from.
  change (msg_candidate (candidate_message from to c)) with (Some c).
  change (peerConnections w0) with (peerConnections w).
  unfold connection, candidate_log.
  destruct (jsmap_get from (peerConnections w)) as [pc|] eqn:Hget; simpl; [|done].
  destruct (heap w !! pc) as [o|] eqn:Ho; simpl.
  - pose proof (add_ice_candidate_takes c (pc_state o)) as Hadd.
    destruct (takes_candidates (pc_state o)).
    + erewrite try_catch_ok; [| by eapply (pcCall_ok pc _ w0 o) ].
      simpl. rewrite Hget. simpl. by rewrite list_lookup_alter_eq, Ho.
    + erewrite try_catch_throw; [| by eapply (pcCall_fail pc _ w0 o) ].
      simpl. rewrite Hget. simpl. by rewrite Ho, <- app_assoc.
  - unfold try_catch, pcCall. simpl. by rewrite Ho.
Qed.

(** C1, as the code has it.  [handleIceCandidate] has no queue: it
    hands each candidate to the sender's connection as it arrives.  So
    for any run of ice-candidate messages from one participant: if its
    connection is open and has a remote description, the candidates
    are applied in the order received; if the connection has no remote
    description yet (or is closed), each candidate is rejected, the
    rejection is logged with [console.error], none is applied and the
    connection is as before; if the participant has no connection, no
    connection object changes.  The map and the signaling channel are
    untouched. *)
Theorem candidates_applied_on_arrival
    (from to : key) (cs : list RTCIceCandidate) (w : World) :
  let w' := run (EMessage ∘ candidate_message from to <$> cs) w in
  peerConnections w' = peerConnections w ∧
  wire w' = wire w ∧
  match connection from w with
  | Some s =>
      connection from w' =
        Some (if takes_candidates s
              then with_candidates (remoteCandidates s ++ cs) s else s) ∧
      console w' = console w ++ (cs ≫= λ _, candidate_log from s)
  | None => heap w' = heap w
  end.
Proof.
  revert w. induction cs as [|c cs IH]; intros w.
  - simpl. split_and!; [done | done |].
    destruct (connection from w) as [s|]; [|done].
    rewrite !app_nil_r. split; [|done].
    destruct (takes_candidates s); [|done]. by destruct s.
  - destruct (step_candidate from to c w) as (Hm & Hw & Hc).
    destruct (IH (step w (EMessage (candidate_message from to c))))
      as (Hm' & Hw' & Hc').
    cbv zeta.
    change (run (EMessage ∘ candidate_message from to <$> c :: cs) w)
      with (run (EMessage ∘ candidate_message from to <$> cs)
                (step w (EMessage (candidate_message from to c)))).
    split_and!; [by etrans | by etrans |].
    destruct (connection from w) as [s|] eqn:Hconn.
    + destruct Hc as [Hc Hlog]. rewrite Hc in Hc'. destruct Hc' as [Hc' Hlog'].
      rewrite Hc', Hlog', Hlog. split.
      * f_equal. destruct (takes_candidates s) eqn:Ht; [|by rewrite Ht].
        rewrite takes_candidates_with_candidates, Ht.
        unfold with_candidates. simpl. by rewrite <- app_assoc.
      * assert (candidate_log from
                  (if takes_candidates s
                   then with_candidates (remoteCandidates s ++ [c]) s else s)
                = candidate_log from s) as ->.
        { unfold candidate_log. destruct (takes_candidates s) eqn:Ht; [|by rewrite Ht].
          by rewrite takes_candidates_with_candidates, Ht. }
        by rewrite <- app_assoc.
    + assert (connection from (step w (EMessage (candidate_message from to c))) = None)
        as Hnone by (unfold connection in *; by rewrite Hm, Hc).
      rewrite Hnone in Hc'. congruence.
Qed.

End Candidates.

(** ** The statements at the meeting of three *)

Section MeetingFacts.
Import Negotiation Meeting.

Example offerer_run :
  view "u2" (run [EMessage bob_joined] alice) = Some (HAVE_LOCAL_OFFER, None, []).
Proof. reflexivity. Qed.

Example answerer_run :
  view "u3" (run [EMessage (offer_from "u3")] alice) =
    Some (STABLE, Some remote_offer, []).
Proof. reflexivity. Qed.

Example candidates_after_description :
  view "u3" (run [EMessage (offer_from "u3");
                  EMessage (candidate_from "u3" host1);
                  EMessage (candidate_from "u3" host2)] alice) =
    Some (STABLE, Some remote_offer, [host1; host2]).
Proof. reflexivity. Qed.

(** C1 fails on the code.  A candidate from "u3" that arrives before
    "u3" has a connection is dropped by the [if (pc && candidate)]:
    once the offer has been applied the connection has a remote
    description and no candidate.  A candidate from "u2" that arrives
    while the connection to "u2" still waits for the answer is
    rejected by the platform, logged and dropped: after the answer the
    connection is STABLE and has no candidate. *)
Lemma early_candidates_are_dropped :
  view "u3" (run [EMessage (candidate_from "u3" host1);
                  EMessage (offer_from "u3")] alice) =
    Some (STABLE, Some remote_offer, []) ∧
  view "u2" (run [EMessage bob_joined;
                  EMessage (candidate_from "u2" host1);
                  EMessage (answer_from "u2")] alice) =
    Some (STABLE, Some remote_answer, []) ∧
  console (run [EMessage bob_joined; EMessage (candidate_from "u2" host1)] alice) =
    [LogReceived (Some "user-joined"); LogUserJoined (Some "Bob") (Some "u2");
     LogReceived (Some "ice-candidate"); ErrAddingIce (Some "u2")].
Proof. split_and!; reflexivity. Qed.

(** C2 fails on the code.  With "u2" and "u3" connected, an answer
    from "u3" that the platform rejects (the connection to "u3" is
    STABLE, no offer is pending) is logged, and the connection to "u3"
    is still in the map, in the state it had; likewise after an offer
    from "u3" that carries no description and after a candidate the
    platform rejects. *)
Lemma failed_application_keeps_connection :
  let w := run [EMessage bob_joined; EMessage (offer_from "u3")] alice in
  let no_sdp := {| msg_type := Some "offer"; msg_userId := None;
                   msg_userName := None; msg_from := Some "u3";
                   msg_to := Some "u1"; msg_sdp := None;
                   msg_candidate := None |} in
  view "u3" w = Some (STABLE, Some remote_offer, []) ∧
  (let w' := run [EMessage (answer_from "u3")] w in
   console w' = console w ++ [LogReceived (Some "answer"); LogAnswer (Some "u3");
                              ErrSettingRemote (Some "u3")] ∧
   jsmap_keys (peerConnections w') = [Some "u2"; Some "u3"] ∧
   view "u3" w' = Some (STABLE, Some remote_offer, [])) ∧
  (let w' := run [EMessage no_sdp] w in
   console w' = console w ++ [LogReceived (Some "offer"); LogOffer (Some "u3");
                              ErrHandlingOffer (Some "u3")] ∧
   jsmap_keys (peerConnections w') = [Some "u2"; Some "u3"] ∧
   view "u3" w' = Some (STABLE, Some remote_offer, [])) ∧
  (let w' := run [EMessage (candidate_from "u2" host1)] w in
   console w' = console w ++ [LogReceived (Some "ice-candidate");
                              ErrAddingIce (Some "u2")] ∧
   jsmap_keys (peerConnections w') = [Some "u2"; Some "u3"] ∧
   view "u2" w' = Some (HAVE_LOCAL_OFFER, None, [])).
Proof. cbv zeta. split_and!; reflexivity. Qed.


Lemma directory_matches_membership_witness :
  Forall (λ e, member_id e ≠ "u1") comings_and_goings ∧
  let w := run (EMessage ∘ membership_message <$> comings_and_goings)
               (constructor "m1" "u1" "Alice" (Some [mic; cam])) in
  NoDup (jsmap_keys (peerConnections w)) ∧
  ∀ k, k ∈ jsmap_keys (peerConnections w) ↔
       ∃ id, k = Some id ∧ id ∈ present comings_and_goings.
Proof.
  assert (Forall (λ e, member_id e ≠ "u1") comings_and_goings) as Hothers
    by (repeat constructor; discriminate).
  split; [exact Hothers|].
  exact (directory_matches_membership "m1" "u1" "Alice" (Some [mic; cam])
           comings_and_goings Hothers).
Defined.

Lemma mic_cam_NoDup : NoDup (default [] (localStream alice)).
Proof. apply (bool_decide_unpack _). vm_compute. exact I. Defined.

Lemma offerer_scenario_witness :
  msg_type bob_joined = Some "user-joined" ∧
  msg_userId bob_joined = Some "u2" ∧
  msg_userName bob_joined = Some "Bob" ∧
  userId alice = "u1" ∧
  ws alice = Some OPEN ∧
  jsmap_get (Some "u2") (peerConnections alice) = None ∧
  NoDup (default [] (localStream alice)) ∧
  ∃ w' offer s,
    handleSignalingMessage bob_joined alice = (Normal tt, w') ∧
    wire w' = wire alice ++
      [<["from" := VStr "u1"]> (<["sdp" := VDesc offer]>
         (<["to" := VStr "u2"]> (<["type" := VStr "offer"]> ∅)))] ∧
    sdp_type offer = SdpOffer ∧
    connection (Some "u2") w' = Some s ∧
    state s = HAVE_LOCAL_OFFER.
Proof.
  split_and!; [reflexivity .. | exact mic_cam_NoDup |].
  exact (offerer_scenario bob_joined alice eq_refl eq_refl eq_refl eq_refl
           eq_refl eq_refl mic_cam_NoDup).
Defined.

Lemma answerer_scenario_witness :
  msg_type (offer_from "u3") = Some "offer" ∧
  msg_from (offer_from "u3") = Some "u3" ∧
  msg_to (offer_from "u3") = Some "u1" ∧
  msg_sdp (offer_from "u3") = Some remote_offer ∧
  sdp_type remote_offer = SdpOffer ∧
  userId alice = "u1" ∧
  ws alice = Some OPEN ∧
  jsmap_get (Some "u3") (peerConnections alice) = None ∧
  NoDup (default [] (localStream alice)) ∧
  ∃ w' answer s,
    handleSignalingMessage (offer_from "u3") alice = (Normal tt, w') ∧
    wire w' = wire alice ++
      [<["from" := VStr "u1"]> (<["sdp" := VDesc answer]>
         (<["to" := VStr "u3"]> (<["type" := VStr "answer"]> ∅)))] ∧
    sdp_type answer = SdpAnswer ∧
    jsmap_get (Some "u3") (peerConnections w') = Some (length (heap alice)) ∧
    connection (Some "u3") w' = Some s ∧
    state s = STABLE ∧
    remoteDescription s = Some remote_offer.
Proof.
  split_and!; [reflexivity .. | exact mic_cam_NoDup |].
  exact (answerer_scenario (offer_from "u3") alice remote_offer eq_refl eq_refl
           eq_refl eq_refl eq_refl eq_refl eq_refl eq_refl mic_cam_NoDup).
Defined.

Lemma media_state_change_unrecognized :
  msg_type media_state_change ∉ Some <$> recognized.
Proof. apply (bool_decide_unpack _). vm_compute. exact I. Defined.

Lemma unrecognized_type_discarded_witness :
  (msg_type media_state_change ∉ Some <$> recognized) ∧
  handleSignalingMessage media_state_change alice =
    (Normal tt,
     set_console (console alice ++ [LogReceived (msg_type media_state_change)]) alice)
  ∧ level (LogReceived (msg_type media_state_change)) = LLog.
Proof.
  split; [exact media_state_change_unrecognized|].
  exact (unrecognized_type_discarded media_state_change alice
           media_state_change_unrecognized).
Defined.

Lemma rejoin_overwrites_without_closing_witness :
  msg_userId bob_joined = Some "u2" ∧
  "u2" ≠ userId with_bob ∧
  jsmap_get (Some "u2") (peerConnections with_bob) = Some 0 ∧
  heap with_bob !! 0 = Some bobs_first ∧
  let w' := (handleUserJoined bob_joined with_bob).2 in
  let new := length (heap with_bob) in
  jsmap_get (Some "u2") (peerConnections w') = Some new ∧
  new ≠ 0 ∧
  (∃ s, heap w' !! new = Some {| pc_state := s; pc_peer := Some "u2" |}) ∧
  heap w' !! 0 = Some bobs_first ∧
  ∀ k, k ≠ Some "u2" →
       jsmap_get k (peerConnections w') = jsmap_get k (peerConnections with_bob).
Proof.
  assert ("u2" ≠ userId with_bob) as Hother by discriminate.
  split_and!; [reflexivity | exact Hother | reflexivity | reflexivity |].
  exact (rejoin_overwrites_without_closing bob_joined with_bob "u2" 0 bobs_first
           eq_refl Hother eq_refl eq_refl).
Defined.


Lemma failed_application_is_contained_witness :
  jsmap_get (Some "u3") (peerConnections with_both) = Some 1 ∧
  heap with_both !! 1 = Some eves ∧
  rejects (msg_sdp (answer_from "u3")) (pc_state eves) ∧
  handleAnswer (answer_from "u3") with_both =
    (Normal tt,
     set_console (console with_both ++
                    [LogAnswer (Some "u3"); ErrSettingRemote (Some "u3")])
       with_both).
Proof.
  split_and!; [reflexivity | reflexivity | reflexivity |].
  exact (proj1 (proj2 (proj1 (failed_application_is_contained
                                (answer_from "u3") with_both)
                         1 eves eq_refl eq_refl))
           eq_refl).
Defined.

Lemma outbound_from_is_local_user_witness :
  let w := run [EInitialize signaling_url; EWsOpen; EMessage bob_joined]
               (constructor "m1" "u1" "Alice" (Some [mic; cam])) in
  ws w = Some OPEN ∧
  spoofed !! "from" = Some (VStr "u9") ∧
  wire (sendSignal spoofed w).2 = wire w ++ [<["from" := VStr "u1"]> spoofed] ∧
  Forall (stamped "u1") (wire (sendSignal spoofed w).2).
Proof.
  intros w.
  pose proof (outbound_from_is_local_user "m1" "u1" "Alice" (Some [mic; cam])
                [EInitialize signaling_url; EWsOpen; EMessage bob_joined] spoofed)
    as (_ & _ & Hall & Hsent).
  split_and!; [reflexivity | reflexivity | exact (Hsent eq_refl) | exact Hall].
Defined.

End MeetingFacts.

(** * Further properties of the handler *)

(** ** Handlers that cannot throw *)

Section Returns.
Context `{Platform}.

Lemma returns_ret {A} (a : A) : returns (ret a).
Proof. intros w. by eexists _, _. Qed.

Lemma returns_get : returns get.
Proof. intros w. by eexists _, _. Qed.

Lemma returns_modify f : returns (modify f).
Proof. intros w. by eexists _, _. Qed.

Lemma returns_log e : returns (log e).
Proof. apply returns_modify. Qed.

Lemma returns_closeObject pc : returns (closeObject pc).
Proof. apply returns_modify. Qed.

Lemma returns_bind {A B} (m : M A) (k : A → M B) :
  returns m → (∀ a, returns (k a)) → returns (m ≫= k).
Proof.
  intros Hm Hk w. destruct (Hm w) as (a & w' & Hw).
  unfold mbind, M_bind, bind. rewrite Hw. apply Hk.
Qed.

(** A [catch] block that returns makes the whole statement return,
    whatever the [try] block does. *)
Lemma returns_try_catch (body handler : M unit) :
  returns handler → returns (try_catch body handler).
Proof.
  intros Hh w. unfold try_catch. destruct (body w) as [[[]|] w'].
  - by eexists _, _.
  - apply Hh.
Qed.

Lemma returns_when (b : bool) (m : M unit) : returns m → returns (when b m).
Proof. destruct b; [done | intros _; apply returns_ret]. Qed.

Lemma returns_forEach {A} (l : list A) (f : A → M unit) :
  (∀ x, returns (f x)) → returns (forEach l f).
Proof.
  intros Hf. induction l as [|x l IH]; simpl; [apply returns_ret|].
  apply returns_bind; [apply Hf | intros _; apply IH].
Qed.

Lemma returns_sendSignal data : returns (sendSignal data).
Proof. intros w. rewrite sendSignal_eq. by eexists _, _. Qed.

End Returns.

Ltac returns_step :=
  lazymatch goal with
  | |- returns (match ?x with _ => _ end) => destruct x
  | |- returns (mbind _ _) => apply returns_bind; [|intros ?]
  | |- returns (ret _) => apply returns_ret
  | |- returns get => apply returns_get
  | |- returns (try_catch _ _) => apply returns_try_catch
  | |- returns (when _ _) => apply returns_when
  | |- returns (forEach _ _) => apply returns_forEach; intros ?
  | |- returns (log _) => apply returns_log
  | |- returns (closeObject _) => apply returns_closeObject
  | |- returns (sendSignal _) => apply returns_sendSignal
  | |- returns (modify _) => apply returns_modify
  end.

Ltac returns_handler :=
  repeat first [ returns_step | progress (autounfold with handlers; cbv zeta) ].

Section Guarded.
Context `{Platform}.

Lemma guarded_returns (e : Event) : guarded e → returns (react e).
Proof.
  intros Hg. destruct e; try done; try (returns_handler; fail).
  destruct Hg as [Hj Ho]. unfold react, ws_onmessage, handleSignalingMessage. cbv zeta.
  apply returns_bind; [apply returns_log | intros _].
  rewrite decide_False by done.
  destruct (decide (msg_type message = Some "user-left")); [returns_handler|].
  rewrite decide_False by done.
  destruct (decide (msg_type message = Some "answer")); [returns_handler|].
  destruct (decide (msg_type message = Some "ice-candidate")); returns_handler.
Qed.

(** X1. Every call the platform can reject in the handlers for user-left,
    answer and ice-candidate messages, for unrecognized messages, for
    the socket events and [onicecandidate], for screen sharing, media
    state and [close], sits in a [try] whose [catch] only logs: none of
    these handlers throws, whatever the platform does and whatever state
    the handler is in.  Left out are the handlers with a call outside a
    [try] (user-joined, offer, a frame that does not parse, [ontrack])
    and [initialize]. *)
Theorem guarded_events_return (e : Event) (w : World) :
  guarded e → ∃ w', react e w = (Normal tt, w').
Proof.
  intros Hg. destruct (guarded_returns e Hg w) as ([] & w' & Hw). by exists w'.
Qed.

End Guarded.

(** ** Leaving *)

Section Leaving.
Context `{Platform}.

Lemma jsmap_delete_set {V} (m : list (key * V)) k v :
  jsmap_delete k (jsmap_set k v m) = jsmap_delete k m.
Proof.
  induction m as [|[k' v'] m IH]; simpl.
  - by rewrite decide_True.
  - destruct (decide (k' = k)) as [->|Hne]; simpl.
    + by rewrite decide_True.
    + by rewrite decide_False, IH.
Qed.

Lemma jsmap_delete_absent {V} (m : list (key * V)) k :
  jsmap_get k m = None → jsmap_delete k m = m.
Proof.
  induction m as [|[k' v'] m IH]; simpl; [done|].
  destruct (decide (k' = k)); [done|]. intros Hget. by rewrite IH.
Qed.

Lemma handleUserLeft_known message w pc :
  jsmap_get (msg_userId message) (peerConnections w) = Some pc →
  handleUserLeft message w =
    (Normal tt,
     set_peerConnections (jsmap_delete (msg_userId message) (peerConnections w))
       (set_heap (alter closed pc (heap w))
          (set_console (console w ++ [LogUserLeft (msg_userId message)]) w))).
Proof.
  intros Hget. unfold handleUserLeft. cbv zeta. rewrite bind_log, bind_get.
  change (peerConnections (set_console ?c w)) with (peerConnections w).
  by rewrite Hget.
Qed.

Lemma handleUserLeft_unknown message w :
  jsmap_get (msg_userId message) (peerConnections w) = None →
  handleUserLeft message w =
    (Normal tt, set_console (console w ++ [LogUserLeft (msg_userId message)]) w).
Proof.
  intros Hget. unfold handleUserLeft. cbv zeta. rewrite bind_log, bind_get.
  change (peerConnections (set_console ?c w)) with (peerConnections w).
  by rewrite Hget.
Qed.

(** X2. A user-left message for a participant with a connection closes that
    connection object and removes the entry, in this order, and returns
    normally; no other entry, no other connection object and nothing on
    the signaling channel changes. *)
Theorem user_left_closes_and_removes (message : Message) (w : World)
    (pc : nat) (o : PcObject) :
  let uid := msg_userId message in
  jsmap_get uid (peerConnections w) = Some pc →
  heap w !! pc = Some o →
  ∃ w',
    handleUserLeft message w = (Normal tt, w') ∧
    jsmap_get uid (peerConnections w') = None ∧
    (∀ k, k ≠ uid →
          jsmap_get k (peerConnections w') = jsmap_get k (peerConnections w)) ∧
    heap w' !! pc = Some (closed o) ∧
    (∀ r, r ≠ pc → heap w' !! r = heap w !! r) ∧
    wire w' = wire w ∧
    console w' = console w ++ [LogUserLeft uid].
Proof.
  intros uid Hget Ho. eexists. split; [by apply handleUserLeft_known|].
  simpl. split_and!; try done.
  - apply jsmap_get_delete_eq.
  - intros k Hk. by apply jsmap_get_delete_ne.
  - by rewrite list_lookup_alter_eq, Ho.
  - intros r Hr. by apply list_lookup_alter_ne.
Qed.

(** X3. A second user-left message for the same participant finds no entry:
    apart from its console line it changes nothing, whether or not the
    first one found a connection. *)
Theorem user_left_twice (message : Message) (w : World) :
  let w1 := (handleUserLeft message w).2 in
  handleUserLeft message w1 =
    (Normal tt, set_console (console w1 ++ [LogUserLeft (msg_userId message)]) w1).
Proof.
  intros w1. apply handleUserLeft_unknown. unfold w1.
  destruct (jsmap_get (msg_userId message) (peerConnections w)) as [pc|] eqn:Hget.
  - rewrite (handleUserLeft_known _ _ pc Hget). simpl. apply jsmap_get_delete_eq.
  - by rewrite (handleUserLeft_unknown _ _ Hget).
Qed.

Lemma one_more_insert h uid w o s :
  one_more h uid w →
  heap w !! length h = Some o →
  one_more h uid
    (set_heap (<[length h := {| pc_state := s; pc_peer := pc_peer o |}]> (heap w)) w).
Proof.
  intros [s0 Hheap] Ho. exists s. simpl. rewrite Hheap in *.
  rewrite list_lookup_middle in Ho by done. injection Ho as <-. simpl.
  rewrite insert_app_r_alt by done. by rewrite Nat.sub_diag.
Qed.

Lemma offer_one_more h uid :
  preserves (one_more h uid)
    (addLocalTracks (length h) ≫= λ _,
       try_catch (negotiate uid (length h)) (log (ErrCreatingOffer uid))).
Proof.
  preserves_handler; solve [ done | intros; by apply one_more_insert ].
Qed.

Lemma handleUserJoined_heap message w :
  msg_userId message ≠ Some (userId w) →
  one_more (heap w) (msg_userId message) (handleUserJoined message w).2.
Proof.
  intros Hne. unfold handleUserJoined. cbv zeta.
  rewrite bind_get, decide_False by done.
  rewrite bind_log, bind_createPeerConnection.
  apply (offer_one_more (heap w) (msg_userId message)).
  by eexists.
Qed.

(** X4. A participant who joins and then leaves is gone from the map, the
    other entries are as they were and in their order, and the
    connection object made for the join is the one that gets closed; the
    connection objects that existed before are as they were.  (If the
    participant had an entry before, its old object is among them.) *)
Theorem join_then_leave (joined left : Message) (w : World) (id : string) :
  msg_userId joined = Some id →
  msg_userId left = Some id →
  id ≠ userId w →
  let w' := (handleUserLeft left (handleUserJoined joined w).2).2 in
  peerConnections w' = jsmap_delete (Some id) (peerConnections w) ∧
  (jsmap_get (Some id) (peerConnections w) = None →
   peerConnections w' = peerConnections w) ∧
  ∃ s, heap w' = heap w ++ [closed {| pc_state := s; pc_peer := Some id |}].
Proof.
  intros Hj Hl Hself w'.
  assert (msg_userId joined ≠ Some (userId w)) as Hne by (rewrite Hj; congruence).
  pose proof (handleUserJoined_peerConnections joined w Hne) as Hpcs.
  pose proof (handleUserJoined_heap joined w Hne) as [s Hheap].
  rewrite Hj in Hpcs, Hheap.
  set (w1 := (handleUserJoined joined w).2) in *.
  assert (jsmap_get (msg_userId left) (peerConnections w1) = Some (length (heap w)))
    as Hget by (rewrite Hl, Hpcs; apply jsmap_get_set_eq).
  unfold w'. rewrite (handleUserLeft_known _ _ _ Hget). simpl.
  rewrite Hl, Hpcs, jsmap_delete_set, Hheap.
  split_and!; [done | by apply jsmap_delete_absent |].
  exists s. rewrite alter_app_r_alt by done. by rewrite Nat.sub_diag.
Qed.

End Leaving.

(** ** A channel that is not open *)

Section Silence.
Context `{Platform}.

Lemma silent_sendSignal sent data : preserves (silent sent) (sendSignal data).
Proof.
  intros w [Hws Hwire]. rewrite sendSignal_eq. simpl.
  by rewrite bool_decide_eq_false_2.
Qed.

Lemma react_silent sent e : e ≠ EWsOpen → preserves (silent sent) (react e).
Proof.
  intros He. destruct e; try done;
    repeat first
      [ lazymatch goal with
        | |- preserves _ (sendSignal _) => apply silent_sendSignal
        end
      | preserves_step
      | progress (autounfold with handlers; cbv zeta) ];
    try done; by intros w0 [? ?].
Qed.

(** X5. As long as the signaling socket has not opened, nothing is sent:
    from a state whose channel is not open, any sequence of method calls
    and events other than the socket's open event leaves the channel as
    it was, and not open.  This holds before [initialize], while the
    socket connects, after the socket closed and after [close()]. *)
Theorem nothing_sent_unless_open (es : list Event) (w : World) :
  ws w ≠ Some OPEN →
  Forall (λ e, e ≠ EWsOpen) es →
  wire (run es w) = wire w ∧ ws (run es w) ≠ Some OPEN.
Proof.
  intros Hws Hes.
  assert (silent (wire w) (run es w)) as [? ?]; [|done].
  assert (silent (wire w) w) as Hw by done.
  revert Hw. generalize (wire w) as sent. intros sent. revert w Hws.
  induction Hes as [|e es He Hes IH]; intros w Hws Hw; [done|].
  simpl. pose proof (react_silent sent e He w Hw) as Hstep.
  apply IH; [by destruct Hstep | done].
Qed.

End Silence.

(** ** Invariants of the whole handler *)

Section Invariants.
Context `{Platform}.

(** [get] hands the current state to the rest of the method. *)
Lemma preserves_bind_get {B} P (k : World → M B) :
  (∀ a, P a → preserves P (k a)) → preserves P (get ≫= k).
Proof. intros Hk w HP. rewrite bind_get. by apply Hk. Qed.

Lemma preserves_sendSignal_open P data :
  (∀ w, P w → ws w = Some OPEN →
        P (set_wire (wire w ++ [<["from" := VStr (userId w)]> data]) w)) →
  preserves P (sendSignal data).
Proof.
  intros Hs w HP. rewrite sendSignal_eq. simpl.
  destruct (decide (ws w = Some OPEN)) as [Hopen|Hopen].
  - rewrite bool_decide_eq_true_2 by done. by apply Hs.
  - by rewrite bool_decide_eq_false_2.
Qed.

Lemma preserves_closeObject_exact P pc :
  (∀ w, P w → P (set_heap (alter closed pc (heap w)) w)) →
  preserves P (closeObject pc).
Proof. intros Hc. apply preserves_modify. intros w. apply Hc. Qed.

Lemma preserves_createPeerConnection_exact P uid :
  (∀ w, P w → P (allocated uid w)) → preserves P (createPeerConnection uid).
Proof. intros Ha w HP. rewrite createPeerConnection_eq. by apply Ha. Qed.

Lemma lookup_prop_eq k v (o : jsobj) : prop k v o !! k = v.
Proof.
  destruct v; simpl; [apply lookup_insert_eq | apply lookup_delete_eq].
Qed.

Lemma lookup_prop_ne k k' v (o : jsobj) : k ≠ k' → prop k v o !! k' = o !! k'.
Proof.
  intros Hne. destruct v; simpl; [by apply lookup_insert_ne | by apply lookup_delete_ne].
Qed.

End Invariants.

(** Like [preserves_step], with the exact effect of every primitive. *)
Ltac invariant_step :=
  lazymatch goal with
  | |- preserves _ (match ?x with _ => _ end) => destruct x
  | |- preserves _ (mbind _ get) => apply preserves_bind_get; intros ? ?
  | |- preserves _ (mbind _ _) => apply preserves_bind; [|intros ?]
  | |- preserves _ (ret _) => apply preserves_ret
  | |- preserves _ (mret _) => apply preserves_mret
  | |- preserves _ throw => apply preserves_throw
  | |- preserves _ (try_catch _ _) => apply preserves_try_catch
  | |- preserves _ (when _ _) => apply preserves_when
  | |- preserves _ (forEach _ _) => apply preserves_forEach; intros ?
  | |- preserves _ (pcQuery _ _) => apply preserves_pcQuery
  | |- preserves _ (log _) => apply preserves_log
  | |- preserves _ (pcCall _ _) => apply preserves_pcCall
  | |- preserves _ (closeObject _) => apply preserves_closeObject_exact
  | |- preserves _ (sendSignal _) => apply preserves_sendSignal_open
  | |- preserves _ (createPeerConnection _) => apply preserves_createPeerConnection_exact
  | |- preserves _ (modify _) => apply preserves_modify
  end.

Ltac invariant_handler :=
  repeat first [ invariant_step | progress (autounfold with handlers; cbv zeta) ].

Ltac lookup_props :=
  repeat first
    [ rewrite lookup_insert_eq
    | rewrite lookup_prop_eq
    | rewrite lookup_insert_ne by done
    | rewrite lookup_prop_ne by done ].

Ltac pick_kind :=
  first [ solve [split_and!; lookup_props; eauto]
        | left; solve [split_and!; lookup_props; eauto]
        | right; pick_kind ].

Section WireFormat.
Context `{Platform}.

Lemma wire_conforms_send uid uname w m :
  wire_conforms uid uname w → conforms uid uname m →
  wire_conforms uid uname (set_wire (wire w ++ [m]) w).
Proof.
  intros (Hu & Hn & Hw) Hm. split_and!; [done | done |]. simpl.
  apply Forall_app. split; [done|]. by apply Forall_singleton.
Qed.

Lemma react_wire_conforms uid uname e :
  preserves (wire_conforms uid uname) (react e).
Proof.
  destruct e; invariant_handler; try done.
  all: try (intros ? ? []; done).
  all: try (intros ? ? ? []; done).
  all: try (intros ? []; done).
  all: intros w0 Hw0 _; apply wire_conforms_send; [done|].
  all: repeat match goal with
              | Ha : wire_conforms _ _ _ |- _ => destruct Ha as (<- & <- & _)
              end.
  all: eexists; (split; [lookup_props; reflexivity|]).
  all: pick_kind.
Qed.

(** X6. Whatever happens to a handler after it is constructed, every message
    it has put on the signaling channel is of one of the eight kinds a
    client sends (never user-joined or user-left, which only the relay
    sends) and carries what its kind requires: join, leave, media state
    and screen-share notices carry the local user's id (join also the
    name), offers and answers carry a session description, and
    ice-candidate messages carry a candidate. *)
Theorem outbound_messages_conform
    (mid uid uname : string) (stream : option (list MediaStreamTrack))
    (es : list Event) :
  Forall (conforms uid uname) (wire (run es (constructor mid uid uname stream))).
Proof.
  assert (∀ w, wire_conforms uid uname w → wire_conforms uid uname (run es w)) as Hrun.
  { induction es as [|e es IH]; intros w Hw; [done|].
    apply IH. by apply react_wire_conforms. }
  apply Hrun. split_and!; [done | done | apply Forall_nil_2].
Qed.

End WireFormat.

(** ** The join announcement *)

Section Announcement.
Context `{Platform}.

Lemma announced_send uid uname w m :
  announced uid uname w → ws w = Some OPEN →
  announced uid uname (set_wire (wire w ++ [m]) w).
Proof.
  intros (Hu & Hn & Hopen & Hhead) Hws. split_and!; [done | done | |]; simpl.
  - intros _. by destruct (wire w).
  - right. destruct Hhead as [Hnil|Hhead]; [by apply Hopen in Hnil|].
    by destruct (wire w).
Qed.

Lemma ws_onopen_announced uid uname : preserves (announced uid uname) ws_onopen.
Proof.
  intros w HP. pose proof HP as (Hu & Hn & _ & Hhead).
  unfold ws_onopen. rewrite bind_get.
  destruct (ws w) as [[]|] eqn:Hws; try exact HP.
  rewrite bind_modify, bind_log, sendSignal_eq. simpl.
  split_and!; [done | done | |]; simpl.
  - intros _. by destruct (wire w).
  - right. destruct Hhead as [->|Hhead]; [|by destruct (wire w)].
    simpl. unfold join_message. by rewrite Hu, Hn.
Qed.

Lemma react_announced uid uname e : preserves (announced uid uname) (react e).
Proof.
  destruct e; try apply ws_onopen_announced; invariant_handler; try done.
  all: try (intros ? ? (? & ? & ? & ?); done).
  all: try (intros ? (? & ? & ? & ?); done).
  all: intros; by apply announced_send.
Qed.

(** X7. The first message a handler ever sends is its join announcement,
    {type:"join", userId, userName, from}: after any sequence of method
    calls and events, the signaling channel is either still empty or
    starts with that message, and it is not empty if the socket is
    open. *)
Theorem join_is_sent_first
    (mid uid uname : string) (stream : option (list MediaStreamTrack))
    (es : list Event) :
  let w := run es (constructor mid uid uname stream) in
  (wire w = [] ∨ head (wire w) = Some (join_message uid uname)) ∧
  (ws w = Some OPEN → wire w ≠ []).
Proof.
  assert (∀ w, announced uid uname w → announced uid uname (run es w)) as Hrun.
  { induction es as [|e es IH]; intros w Hw; [done|].
    apply IH. by apply react_announced. }
  intros w. destruct (Hrun (constructor mid uid uname stream)) as (_ & _ & Ho & Hh).
  - split_and!; [done | done | done | by left].
  - done.
Qed.

End Announcement.

(** ** Local ICE candidates *)

Section LocalCandidates.
Context `{Platform}.

Lemma made_for_allocated pc uid uid' w :
  made_for pc uid w → made_for pc uid (allocated uid' w).
Proof.
  intros [s Hs]. exists s. unfold allocated. simpl.
  rewrite lookup_app_l; [done | by eapply lookup_lt_Some].
Qed.

Lemma made_for_insert pc uid pc' w o s :
  made_for pc uid w → heap w !! pc' = Some o →
  made_for pc uid
    (set_heap (<[pc' := {| pc_state := s; pc_peer := pc_peer o |}]> (heap w)) w).
Proof.
  intros [s0 Hs0] Ho. unfold made_for. simpl.
  destruct (decide (pc' = pc)) as [->|Hne].
  - exists s. rewrite list_lookup_insert_eq by by eapply lookup_lt_Some.
    rewrite Hs0 in Ho. by injection Ho as <-.
  - exists s0. by rewrite list_lookup_insert_ne.
Qed.

Lemma made_for_closed pc uid pc' w :
  made_for pc uid w → made_for pc uid (set_heap (alter closed pc' (heap w)) w).
Proof.
  intros [s0 Hs0]. unfold made_for. simpl.
  destruct (decide (pc' = pc)) as [->|Hne].
  - eexists. by rewrite list_lookup_alter_eq, Hs0.
  - exists s0. by rewrite list_lookup_alter_ne.
Qed.

Lemma react_made_for pc uid e : preserves (made_for pc uid) (react e).
Proof.
  destruct e; invariant_handler;
    first [ done
          | intros; by apply made_for_allocated
          | intros; by eapply made_for_insert
          | intros; by apply made_for_closed ].
Qed.

Lemma run_made_for pc uid es w : made_for pc uid w → made_for pc uid (run es w).
Proof.
  revert w. induction es as [|e es IH]; intros w Hw; [done|].
  apply IH. by apply react_made_for.
Qed.

Lemma run_userId es w : userId (run es w) = userId w.
Proof.
  revert w. induction es as [|e es IH]; intros w; [done|].
  simpl. rewrite IH. by apply (react_userId (userId w)).
Qed.

(** X8. A connection object keeps signaling to the participant it was made
    for.  Whatever happens after a connection is created (the
    participant leaving, its map entry being replaced, [close()]), a
    local candidate the platform reports for it is sent, when the
    channel is open, as exactly one ice-candidate message addressed to
    that participant; the end-of-candidates event (no candidate) sends
    nothing. *)
Theorem local_candidates_reach_their_peer
    (es : list Event) (w : World) (pc : nat) (o : PcObject) (c : RTCIceCandidate) :
  heap w !! pc = Some o →
  let w' := run es w in
  onicecandidate pc None w' = (Normal tt, w') ∧
  (ws w' = Some OPEN →
   onicecandidate pc (Some c) w' =
     (Normal tt,
      set_wire (wire w' ++ [candidate_signal (userId w) (pc_peer o) c]) w')).
Proof.
  intros Ho w'.
  assert (made_for pc (pc_peer o) w') as [s Hs].
  { apply run_made_for. exists (pc_state o). by destruct o. }
  unfold onicecandidate. rewrite !bind_get, Hs. split; [done|].
  intros Hopen. rewrite sendSignal_eq, bool_decide_eq_true_2 by done.
  unfold candidate_signal, w'. by rewrite run_userId.
Qed.

End LocalCandidates.

(** ** The map in every reachable state *)

Section WellFormed.
Context `{Platform}.

Lemma jsmap_set_values {V} (m : list (key * V)) k v x :
  x ∈ (jsmap_set k v m).*2 → x = v ∨ x ∈ m.*2.
Proof.
  induction m as [|[k' v'] m IH]; simpl.
  - intros ->%list_elem_of_singleton. by left.
  - destruct (decide (k' = k)) as [->|Hne]; simpl; rewrite !elem_of_cons.
    + intros [->|Hin]; [by left | right; by right].
    + intros [->|Hin]; [right; by left|].
      destruct (IH Hin) as [->|?]; [by left | right; by right].
Qed.

Lemma jsmap_set_values_NoDup {V} (m : list (key * V)) k v :
  v ∉ m.*2 → NoDup m.*2 → NoDup (jsmap_set k v m).*2.
Proof.
  induction m as [|[k' v'] m IH]; simpl; intros Hv Hnd.
  - apply NoDup_singleton.
  - apply not_elem_of_cons in Hv as [Hne Hv].
    apply NoDup_cons in Hnd as [Hnotin Hnd].
    destruct (decide (k' = k)) as [->|Hk]; simpl.
    + by apply NoDup_cons.
    + apply NoDup_cons. split; [|by apply IH].
      intros Hin. apply jsmap_set_values in Hin as [->|Hin]; done.
Qed.

Lemma jsmap_delete_values {V} (m : list (key * V)) k x :
  x ∈ (jsmap_delete k m).*2 → x ∈ m.*2.
Proof.
  induction m as [|[k' v'] m IH]; simpl; [done|].
  destruct (decide (k' = k)); simpl; rewrite ?elem_of_cons;
    [intros Hin; right; by apply IH|].
  intros [->|Hin]; [by left | right; by apply IH].
Qed.

Lemma jsmap_delete_values_NoDup {V} (m : list (key * V)) k :
  NoDup m.*2 → NoDup (jsmap_delete k m).*2.
Proof.
  induction m as [|[k' v'] m IH]; simpl; intros Hnd; [done|].
  apply NoDup_cons in Hnd as [Hnotin Hnd].
  destruct (decide (k' = k)); simpl; [by apply IH|].
  apply NoDup_cons. split; [|by apply IH].
  intros Hin. by apply jsmap_delete_values in Hin.
Qed.

Lemma directory_wf_allocated uid w : directory_wf w → directory_wf (allocated uid w).
Proof.
  intros (Hk & Hv & Hb). unfold directory_wf, allocated. simpl.
  assert (length (heap w) ∉ (peerConnections w).*2) as Hfresh.
  { intros Hin. rewrite Forall_forall in Hb. specialize (Hb _ Hin). lia. }
  split_and!.
  - by apply jsmap_set_NoDup.
  - by apply jsmap_set_values_NoDup.
  - apply Forall_forall. intros x Hx. rewrite length_app. simpl.
    apply jsmap_set_values in Hx as [->|Hx]; [lia|].
    rewrite Forall_forall in Hb. specialize (Hb _ Hx). lia.
Qed.

Lemma directory_wf_delete uid w :
  directory_wf w →
  directory_wf (set_peerConnections (jsmap_delete uid (peerConnections w)) w).
Proof.
  intros (Hk & Hv & Hb). unfold directory_wf. simpl. split_and!.
  - by apply jsmap_delete_NoDup.
  - by apply jsmap_delete_values_NoDup.
  - apply Forall_forall. intros x Hx. apply jsmap_delete_values in Hx.
    rewrite Forall_forall in Hb. by apply Hb.
Qed.

Lemma directory_wf_heap h w :
  length h = length (heap w) → directory_wf w → directory_wf (set_heap h w).
Proof. intros Hlen (Hk & Hv & Hb). unfold directory_wf. simpl. by rewrite Hlen. Qed.

Lemma react_directory_wf e : preserves directory_wf (react e).
Proof.
  destruct e; invariant_handler;
    first [ done
          | intros; by apply directory_wf_allocated
          | intros; by apply directory_wf_delete
          | intros; apply directory_wf_heap; [by rewrite length_insert | done]
          | intros; apply directory_wf_heap; [by rewrite length_alter | done]
          | idtac ].
  intros w0 _. split_and!; simpl; [apply NoDup_nil_2 | apply NoDup_nil_2 | done].
Qed.

(** X9. In every state a handler can reach, the peer-connection map holds
    each participant once, no two participants share one connection
    object, and every entry refers to a connection object that exists.
    This holds under all messages, events and method calls, not only
    joins and leaves. *)
Theorem directory_is_well_formed
    (mid uid uname : string) (stream : option (list MediaStreamTrack))
    (es : list Event) :
  directory_wf (run es (constructor mid uid uname stream)).
Proof.
  assert (∀ w, directory_wf w → directory_wf (run es w)) as Hrun.
  { induction es as [|e es IH]; intros w Hw; [done|].
    apply IH. by apply react_directory_wf. }
  apply Hrun. split_and!; simpl; [apply NoDup_nil_2 | apply NoDup_nil_2 | done].
Qed.

End WellFormed.

(** ** What close() does *)

Section Closing.
Context `{Platform}.

Lemma forEach_closeObject_exact (l : list (key * nat)) w :
  forEach l (λ e, closeObject e.2) w =
    (Normal tt, set_heap (close_all l (heap w)) w).
Proof.
  revert w. induction l as [|e l IH]; intros w; simpl.
  - by destruct w.
  - rewrite (bind_ok _ _ w tt (set_heap (alter closed e.2 (heap w)) w))
      by reflexivity.
    by rewrite IH.
Qed.

Lemma close_eq w :
  close w =
    (Normal tt,
     set_ws None
       (set_wire (wire w ++ transmitted w [leave_message (userId w)])
          (set_peerConnections []
             (set_heap (close_all (peerConnections w) (heap w))
                (set_console (console w ++ [LogClosing]) w))))).
Proof.
  unfold close. rewrite bind_log, bind_get.
  erewrite bind_ok; [|apply forEach_closeObject_exact].
  rewrite bind_modify, bind_get. simpl. unfold transmitted.
  destruct (ws w) as [r|] eqn:Hws.
  - erewrite bind_ok; [|apply sendSignal_eq]. simpl. rewrite Hws.
    unfold modify, leave_message, set_ws, set_wire. simpl.
    destruct (bool_decide (Some r = Some OPEN)); simpl; [done|].
    by rewrite app_nil_r.
  - rewrite bool_decide_eq_false_2 by done. rewrite app_nil_r.
    destruct w. simpl in *. by subst.
Qed.

Lemma close_all_untouched l (h : list PcObject) r :
  r ∉ l.*2 → close_all l h !! r = h !! r.
Proof.
  revert h. induction l as [|e l IH]; intros h Hr; [done|].
  simpl in *. apply not_elem_of_cons in Hr as [Hne Hr].
  rewrite IH by done. by apply list_lookup_alter_ne.
Qed.

Lemma close_all_closed l (h : list PcObject) r o :
  r ∈ l.*2 → h !! r = Some o →
  ∃ n, close_all l h !! r = Some (Nat.iter (S n) closed o).
Proof.
  revert h o. induction l as [|[k pc] l IH]; intros h o Hr Ho.
  - by apply elem_of_nil in Hr.
  - change (close_all ((k, pc) :: l) h) with (close_all l (alter closed pc h)).
    change (((k, pc) :: l).*2) with (pc :: l.*2) in Hr.
    destruct (decide (r ∈ l.*2)) as [Hin|Hout].
    + destruct (decide (pc = r)) as [->|Hne].
      * destruct (IH (alter closed r h) (closed o) Hin) as [n Hn].
        { by rewrite list_lookup_alter_eq, Ho. }
        exists (S n). rewrite Hn. f_equal. by rewrite <- Nat.iter_succ_r.
      * apply IH; [done|]. by rewrite list_lookup_alter_ne.
    + apply elem_of_cons in Hr as [->|Hr]; [|done].
      exists 0. rewrite close_all_untouched by done.
      by rewrite list_lookup_alter_eq, Ho.
Qed.

(** X10. [close()] closes every connection object the map refers to (an
    object referred to more than once is closed as often), leaves all
    other connection objects as they are, empties the map, sends the
    leave notice if and only if the channel is open, and forgets the
    socket.  A connection object that is no longer in the map, such as
    one replaced by a repeated join, is therefore never closed. *)
Theorem close_closes_what_the_map_holds (w : World) :
  ∃ w',
    close w = (Normal tt, w') ∧
    (∀ r o, r ∈ (peerConnections w).*2 → heap w !! r = Some o →
            ∃ n, heap w' !! r = Some (Nat.iter (S n) closed o)) ∧
    (∀ r, r ∉ (peerConnections w).*2 → heap w' !! r = heap w !! r) ∧
    wire w' = wire w ++ transmitted w [leave_message (userId w)] ∧
    peerConnections w' = [] ∧
    ws w' = None.
Proof.
  eexists. split; [apply close_eq|]. simpl. split_and!; try done.
  - intros r o Hr Ho. by apply close_all_closed.
  - intros r Hr. by apply close_all_untouched.
Qed.

End Closing.

(** ** Stopping a screen share that no connection carries *)

Section Unshared.
Context `{Platform}.

Lemma forEach_unshared track (l : list (key * nat)) w :
  Forall (λ e : key * nat,
            ∃ o, heap w !! e.2 = Some o ∧ track ∉ getSenders (pc_state o)) l →
  forEach l (λ e,
    try_catch (sender ← hasSender e.2 track;
               when sender (pcCall e.2 (removeTrack track);; negotiate e.1 e.2))
              (log (ErrRemovingScreenShare e.1))) w = (Normal tt, w).
Proof.
  induction 1 as [|e l (o & Ho & Hnot) Hl IH]; [done|].
  simpl. erewrite bind_ok; [exact IH|].
  apply try_catch_ok. erewrite bind_ok.
  2:{ unfold hasSender. eapply pcQuery_ok; [exact Ho|]. reflexivity. }
  by rewrite bool_decide_eq_false_2.
Qed.

(** X11. [removeScreenShareTrack] for a track that no connection in the map
    sends (for instance when called twice, or with an empty map) finds
    no sender: it removes nothing, renegotiates with nobody and changes
    no connection; its only message is the screen-share-stopped notice,
    sent if the channel is open. *)
Theorem remove_unshared_track (track : MediaStreamTrack) (w : World) :
  unshared track w →
  removeScreenShareTrack track w =
    (Normal tt,
     set_wire (wire w ++ transmitted w [screen_share_stopped (userId w)])
       (set_console (console w ++ [LogRemovingScreenShare]) w)).
Proof.
  intros Hun. unfold removeScreenShareTrack.
  rewrite bind_log, bind_get.
  erewrite bind_ok; [|by apply forEach_unshared].
  rewrite sendSignal_eq. unfold transmitted, screen_share_stopped. simpl.
  destruct (bool_decide (ws w = Some OPEN)); [done|].
  rewrite app_nil_r. by destruct w.
Qed.

End Unshared.

(** ** The offerer path in general *)

Section Offerer.
Import Negotiation.

Lemma handleUserJoined_offers (message : Message) (w : World) :
  msg_userId message ≠ Some (userId w) →
  NoDup (default [] (localStream w)) →
  let uid := msg_userId message in
  let ts := default [] (localStream w) in
  handleUserJoined message w =
    (Normal tt,
     set_wire
       (wire w ++ transmitted w
          [offer_message (userId w) uid (describe SdpOffer (with_senders ts new))])
       (with_pc (length (heap w)) (offering ts)
          (allocated uid
             (set_console (console w ++ [LogUserJoined (msg_userName message) uid]) w)))).
Proof.
  intros Hne Hnd uid ts.
  unfold handleUserJoined. cbv zeta. rewrite bind_get.
  rewrite decide_False by done.
  rewrite bind_log, bind_createPeerConnection. fold uid.
  set (pc := length (heap w)).
  match goal with |- context [ (addLocalTracks _ ≫= _) ?w0 ] => set (w1 := w0) end.
  assert (heap w1 !! pc = Some {| pc_state := new; pc_peer := uid |}) as Hpc
    by by apply list_lookup_middle.
  erewrite bind_ok;
    [| eapply addLocalTracks_ok; [exact Hpc | by apply attachTracks_new] ].
  set (s1 := with_senders ts new : @RTCPeerConnection platform).
  assert (heap (with_pc pc s1 w1) !! pc = Some {| pc_state := s1; pc_peer := uid |})
    as Hpc2 by by apply (with_pc_lookup pc _ w1 _ Hpc).
  erewrite try_catch_ok;
    [| erewrite negotiate_eq; [apply sendSignal_eq | exact Hpc2 | done | done] ].
  unfold transmitted, offer_message, with_pc, allocated, w1. simpl.
  destruct (bool_decide (ws w = Some OPEN)); simpl.
  - do 2 f_equal. unfold set_wire, set_heap. simpl. f_equal.
    by rewrite list_alter_alter_eq.
  - rewrite app_nil_r. do 2 f_equal. unfold set_wire, set_heap. simpl. f_equal.
    by rewrite list_alter_alter_eq.
Qed.

End Offerer.

(** ** Offer and answer *)

Section Handshake.
Import Negotiation.

Lemma handleAnswer_accepted (message : Message) (w : World) pc (o : PcObject) d :
  jsmap_get (msg_from message) (peerConnections w) = Some pc →
  heap w !! pc = Some o →
  state (pc_state o) = HAVE_LOCAL_OFFER →
  msg_sdp message = Some d →
  sdp_type d = SdpAnswer →
  handleAnswer message w =
    (Normal tt,
     with_pc pc (answered d (pc_state o))
       (set_console (console w ++ [LogAnswer (msg_from message)]) w)).
Proof.
  intros Hget Ho Hst Hsdp Hd. unfold handleAnswer. cbv zeta.
  rewrite bind_log, bind_get, Hsdp.
  change (peerConnections (set_console ?c w)) with (peerConnections w).
  rewrite Hget. apply try_catch_ok. unfold applyRemoteDescription.
  eapply pcCall_ok; [exact Ho|]. simpl. unfold set_remote. by rewrite Hd, Hst.
Qed.

(** X12. The offerer's round: a user-joined message for another participant
    followed by that participant's answer leaves the connection STABLE
    with the answer as its remote description and the local tracks
    attached; in the whole round the handler sends one message, the
    offer (nothing if the channel is not open), and logs no error. *)
Theorem offer_answer_round (joined answer : Message) (w : World)
    (id : string) (d : RTCSessionDescription) :
  msg_userId joined = Some id →
  id ≠ userId w →
  NoDup (default [] (localStream w)) →
  msg_from answer = Some id →
  msg_sdp answer = Some d →
  sdp_type d = SdpAnswer →
  let ts := default [] (localStream w) in
  let w1 := (handleUserJoined joined w).2 in
  ∃ w2,
    handleAnswer answer w1 = (Normal tt, w2) ∧
    connection (Some id) w2 = Some (answered d (offering ts)) ∧
    wire w2 = wire w ++ transmitted w
      [offer_message (userId w) (Some id) (describe SdpOffer (with_senders ts new))] ∧
    console w2 = console w ++
      [LogUserJoined (msg_userName joined) (Some id); LogAnswer (Some id)].
Proof.
  intros Hid Hself Hnd Hfrom Hsdp Hd ts w1.
  assert (msg_userId joined ≠ Some (userId w)) as Hne by (rewrite Hid; congruence).
  pose proof (handleUserJoined_offers joined w Hne Hnd) as Hjoin.
  cbv zeta in Hjoin. rewrite Hid in Hjoin. fold ts in Hjoin.
  assert (jsmap_get (msg_from answer) (peerConnections w1) = Some (length (heap w)))
    as Hget.
  { unfold w1. rewrite Hjoin, Hfrom. simpl. apply jsmap_get_set_eq. }
  assert (heap w1 !! length (heap w) =
            Some {| pc_state := offering ts; pc_peer := Some id |}) as Ho.
  { unfold w1. rewrite Hjoin. simpl. rewrite list_lookup_alter_eq.
    by rewrite (list_lookup_middle (heap w) [] _ (length (heap w))). }
  eexists. split; [by eapply handleAnswer_accepted|].
  unfold connection. simpl. rewrite Hfrom in Hget. rewrite Hget. simpl.
  rewrite list_lookup_alter_eq, Ho. split_and!; [done | |].
  - unfold w1. by rewrite Hjoin.
  - unfold w1. rewrite Hjoin, Hfrom. simpl. by rewrite <- app_assoc.
Qed.

(** X13. [handleUserJoined] does not check that the message names a
    participant.  A user-joined message without a [userId] is not the
    local user's, so it is treated like any other: a connection is made
    and stored under the key [undefined], and the offer that is sent has
    no [to] ([JSON.stringify] drops the undefined property). *)
Theorem join_without_userId (message : Message) (w : World) :
  msg_userId message = None →
  NoDup (default [] (localStream w)) →
  ws w = Some OPEN →
  ∃ w' m,
    handleUserJoined message w = (Normal tt, w') ∧
    jsmap_get None (peerConnections w') = Some (length (heap w)) ∧
    wire w' = wire w ++ [m] ∧
    m !! "type" = Some (VStr "offer") ∧
    m !! "to" = None.
Proof.
  intros Hid Hnd Hopen.
  assert (msg_userId message ≠ Some (userId w)) as Hne by (by rewrite Hid).
  pose proof (handleUserJoined_offers message w Hne Hnd) as Hjoin.
  cbv zeta in Hjoin. rewrite Hid in Hjoin.
  eexists _, _. split; [exact Hjoin|]. simpl.
  unfold transmitted. rewrite bool_decide_eq_true_2 by done.
  split_and!; [apply jsmap_get_set_eq | done | done | done].
Qed.

Lemma handleOffer_known (message : Message) (w : World) pc (o : PcObject) d :
  jsmap_get (msg_from message) (peerConnections w) = Some pc →
  heap w !! pc = Some o →
  takes_offer (pc_state o) = true →
  msg_sdp message = Some d →
  sdp_type d = SdpOffer →
  handleOffer message w =
    (Normal tt,
     set_wire
       (wire w ++ transmitted w
          [answer_message (userId w) (msg_from message)
             (describe SdpAnswer (pc_state o))])
       (with_pc pc (reanswered d (pc_state o))
          (set_console (console w ++ [LogOffer (msg_from message)]) w))).
Proof.
  intros Hget Ho Htakes Hsdp Hd. unfold handleOffer. cbv zeta.
  rewrite bind_log, bind_get, Hsdp.
  change (peerConnections (set_console ?c w)) with (peerConnections w).
  rewrite Hget, bind_ret.
  set (w0 := set_console _ w).
  assert (heap w0 !! pc = Some o) as Ho0 by done.
  set (s1 := {| state := HAVE_REMOTE_OFFER;
                localDescription := localDescription (pc_state o);
                remoteDescription := Some d; senders := senders (pc_state o);
                remoteCandidates := remoteCandidates (pc_state o) |}
             : @RTCPeerConnection platform).
  assert (set_remote d (pc_state o) = Some s1) as Hrem.
  { unfold set_remote, takes_offer in *. rewrite Hd.
    by destruct (state (pc_state o)). }
  erewrite try_catch_ok;
    [| erewrite answerOffer_eq;
       [apply sendSignal_eq | exact Ho0 | exact Hrem | done | done] ].
  unfold transmitted, answer_message. simpl.
  destruct (bool_decide (ws w = Some OPEN)); [done|].
  rewrite app_nil_r. by f_equal.
Qed.

(** X14. An offer from a participant who already has a connection is a
    renegotiation: when that connection can take a remote offer (it is
    new, stable or holds an earlier remote offer), the handler applies
    the offer to the same connection object, answers, and leaves it
    STABLE.  No connection is created, the map is untouched, the local
    tracks are not attached a second time and the candidates already
    taken are kept; one answer is sent (none if the channel is not
    open). *)
Theorem offer_from_known_participant (message : Message) (w : World)
    (pc : nat) (o : PcObject) (d : RTCSessionDescription) :
  let from := msg_from message in
  jsmap_get from (peerConnections w) = Some pc →
  heap w !! pc = Some o →
  takes_offer (pc_state o) = true →
  msg_sdp message = Some d →
  sdp_type d = SdpOffer →
  ∃ w',
    handleOffer message w = (Normal tt, w') ∧
    peerConnections w' = peerConnections w ∧
    length (heap w') = length (heap w) ∧
    heap w' !! pc = Some {| pc_state := reanswered d (pc_state o);
                            pc_peer := pc_peer o |} ∧
    (∀ r, r ≠ pc → heap w' !! r = heap w !! r) ∧
    wire w' = wire w ++ transmitted w
      [answer_message (userId w) from (describe SdpAnswer (pc_state o))] ∧
    console w' = console w ++ [LogOffer from].
Proof.
  intros from Hget Ho Htakes Hsdp Hd.
  eexists. split; [by eapply handleOffer_known|]. simpl.
  split_and!; try done.
  - by rewrite length_alter.
  - by rewrite list_lookup_alter_eq, Ho.
  - intros r Hr. by rewrite list_lookup_alter_ne.
Qed.

End Handshake.

(** ** Starting a screen share *)

Section FanOut.
Import Negotiation.

Lemma share_one track (e : key * nat) (w : World) (o : PcObject) :
  heap w !! e.2 = Some o →
  can_offer (pc_state o) = true →
  track ∉ senders (pc_state o) →
  try_catch (pcCall e.2 (addTrack track);; negotiate e.1 e.2)
            (log (ErrAddingScreenShare e.1)) w =
    (Normal tt,
     set_wire
       (wire w ++ transmitted w
          [offer_message (userId w) e.1
             (describe SdpOffer
                (with_senders (senders (pc_state o) ++ [track]) (pc_state o)))])
       (with_pc e.2 (sharing track (pc_state o)) w)).
Proof.
  intros Ho Hcan Hnot. apply try_catch_ok.
  set (s1 := with_senders (senders (pc_state o) ++ [track]) (pc_state o)
             : @RTCPeerConnection platform).
  assert (add_track track (pc_state o) = Some s1) as Hadd.
  { unfold add_track, can_offer in *.
    rewrite decide_False by (intros Hc; by rewrite Hc in Hcan).
    by rewrite decide_False. }
  erewrite bind_ok; [| by eapply pcCall_ok ].
  pose proof (with_pc_lookup e.2 s1 w o Ho) as Ho1.
  assert (create_offer s1 = Some (describe SdpOffer s1)) as Hoffer.
  { unfold create_offer, can_offer in *. simpl. by destruct (state (pc_state o)). }
  assert (set_local (describe SdpOffer s1) s1 = Some (sharing track (pc_state o)))
    as Hlocal.
  { unfold set_local, can_offer in *. simpl. by destruct (state (pc_state o)). }
  erewrite negotiate_eq; [| exact Ho1 | exact Hoffer | exact Hlocal ].
  rewrite sendSignal_eq, with_pc_with_pc. unfold transmitted, offer_message. simpl.
  destruct (bool_decide (ws w = Some OPEN)); [done|].
  by rewrite app_nil_r.
Qed.

Lemma share_offer_ne self track (h : list PcObject) f pc (e : key * nat) :
  pc ≠ e.2 → share_offer self track (alter f pc h) e = share_offer self track h e.
Proof. intros Hne. unfold share_offer. by rewrite list_lookup_alter_ne. Qed.

Lemma share_offer_other self track (h : list PcObject) f pc (l : list (key * nat)) :
  pc ∉ l.*2 →
  omap (share_offer self track (alter f pc h)) l = omap (share_offer self track h) l.
Proof.
  induction l as [|e l IH]; intros Hpc; [done|].
  change ((e :: l).*2) with (e.2 :: l.*2) in Hpc.
  apply not_elem_of_cons in Hpc as [Hne Hpc]. specialize (IH Hpc).
  change (omap ?f (e :: l)) with
    (match f e with Some y => y :: omap f l | None => omap f l end).
  by rewrite share_offer_ne, IH.
Qed.

Lemma ready_to_share_other track (l : list (key * nat)) (h : list PcObject) f pc :
  pc ∉ l.*2 → ready_to_share track l h → ready_to_share track l (alter f pc h).
Proof.
  unfold ready_to_share. intros Hpc Hl. induction Hl as [|e l He Hl IH]; [done|].
  simpl in Hpc. apply not_elem_of_cons in Hpc as [Hne Hpc].
  constructor; [|by apply IH]. by rewrite list_lookup_alter_ne.
Qed.

Lemma forEach_share track (l : list (key * nat)) (w : World) :
  NoDup l.*2 →
  ready_to_share track l (heap w) →
  forEach l (λ e,
    try_catch (pcCall e.2 (addTrack track);; negotiate e.1 e.2)
              (log (ErrAddingScreenShare e.1))) w =
    (Normal tt,
     set_wire
       (wire w ++ transmitted w (omap (share_offer (userId w) track (heap w)) l))
       (set_heap (share_all track l (heap w)) w)) ∧
  length (omap (share_offer (userId w) track (heap w)) l) = length l.
Proof.
  revert w. induction l as [|e l IH]; intros w Hnd Hready.
  - simpl. split; [|done]. unfold transmitted.
    destruct (bool_decide (ws w = Some OPEN)); rewrite app_nil_r; by destruct w.
  - change ((e :: l).*2) with (e.2 :: l.*2) in Hnd.
    apply NoDup_cons in Hnd as [Hnotin Hnd].
    apply Forall_cons in Hready as [(o & Ho & Hcan & Hnot) Hready].
    pose proof (share_one track e w o Ho Hcan Hnot) as Hone.
    set (oe := offer_message (userId w) e.1
                 (describe SdpOffer
                    (with_senders (senders (pc_state o) ++ [track]) (pc_state o))))
      in *.
    set (s1 := sharing track (pc_state o) : @RTCPeerConnection platform) in *.
    set (w1 := set_wire (wire w ++ transmitted w [oe]) (with_pc e.2 s1 w)) in *.
    destruct (IH w1 Hnd) as [Hrest Hlen].
    { by apply ready_to_share_other. }
    change (heap w1) with
      (alter (λ o0, {| pc_state := s1; pc_peer := pc_peer o0 |}) e.2 (heap w)) in Hrest, Hlen.
    change (userId w1) with (userId w) in Hrest, Hlen.
    rewrite share_offer_other in Hrest, Hlen by done.
    assert (share_offer (userId w) track (heap w) e = Some oe) as Hoe
      by (unfold share_offer; by rewrite Ho).
    change (omap ?f (e :: l)) with
      (match f e with Some y => y :: omap f l | None => omap f l end).
    rewrite Hoe. split; [|simpl; by f_equal].
    change (forEach (e :: l) ?f) with (f e ≫= λ _, forEach l f).
    erewrite bind_ok; [|exact Hone]. rewrite Hrest.
    assert (share_all track (e :: l) (heap w) =
            share_all track l
              (alter (λ o0, {| pc_state := s1; pc_peer := pc_peer o0 |})
                     e.2 (heap w))) as ->.
    { unfold share_all. simpl. f_equal.
      apply list_alter_ext; [|done]. intros o' Ho'.
      rewrite Ho in Ho'. by injection Ho' as <-. }
    unfold w1, transmitted. simpl.
    destruct (bool_decide (ws w = Some OPEN)).
    + by rewrite <- app_assoc.
    + by rewrite !app_nil_r.
Qed.

Lemma share_all_skip track (l : list (key * nat)) (h : list PcObject) pc :
  pc ∉ l.*2 → share_all track l h !! pc = h !! pc.
Proof.
  revert h. induction l as [|[k r] l IH]; intros h Hpc; [done|].
  change (((k, r) :: l).*2) with (r :: l.*2) in Hpc.
  apply not_elem_of_cons in Hpc as [Hne Hpc].
  change (share_all track ((k, r) :: l) h) with
    (share_all track l
       (alter (λ o, {| pc_state := sharing track (pc_state o);
                       pc_peer := pc_peer o |}) r h)).
  rewrite IH by done. by apply list_lookup_alter_ne.
Qed.

Lemma share_all_lookup track (l : list (key * nat)) (h : list PcObject) pc o :
  NoDup l.*2 → pc ∈ l.*2 → h !! pc = Some o →
  share_all track l h !! pc =
    Some {| pc_state := sharing track (pc_state o); pc_peer := pc_peer o |}.
Proof.
  revert h. induction l as [|[k r] l IH]; intros h Hnd Hin Ho.
  - by apply elem_of_nil in Hin.
  - change (((k, r) :: l).*2) with (r :: l.*2) in *.
    apply NoDup_cons in Hnd as [Hnotin Hnd].
    change (share_all track ((k, r) :: l) h) with
      (share_all track l
         (alter (λ o, {| pc_state := sharing track (pc_state o);
                         pc_peer := pc_peer o |}) r h)).
    apply elem_of_cons in Hin as [Heq|Hin].
    + subst r. rewrite share_all_skip by done.
      by rewrite list_lookup_alter_eq, Ho.
    + apply IH; [done | done |].
      rewrite list_lookup_alter_ne; [done|]. by intros ->.
Qed.

(** X15. Starting a screen share renegotiates with everybody.  When the map
    refers to distinct connection objects that can each take the track
    and make an offer, [addScreenShareTrack] attaches the track to every
    one of them, leaves each with a pending local offer, and sends one
    offer per map entry, in map order and addressed to that entry's
    participant, followed by the screen-share-started notice; no error
    is logged.  If the channel is not open the connections change all
    the same and nothing is sent. *)
Theorem screen_share_fans_out (track : MediaStreamTrack) (w : World) :
  NoDup (peerConnections w).*2 →
  ready_to_share track (peerConnections w) (heap w) →
  let offers := omap (share_offer (userId w) track (heap w)) (peerConnections w) in
  ∃ w',
    addScreenShareTrack track w = (Normal tt, w') ∧
    wire w' = wire w ++ transmitted w (offers ++ [screen_share_started (userId w)]) ∧
    length offers = length (peerConnections w) ∧
    (∀ pc o, pc ∈ (peerConnections w).*2 → heap w !! pc = Some o →
             heap w' !! pc = Some {| pc_state := sharing track (pc_state o);
                                     pc_peer := pc_peer o |}) ∧
    peerConnections w' = peerConnections w ∧
    console w' = console w ++ [LogAddingScreenShare].
Proof.
  intros Hnd Hready offers.
  unfold addScreenShareTrack. rewrite bind_log, bind_get.
  set (w0 := set_console (console w ++ [LogAddingScreenShare]) w).
  destruct (forEach_share track (peerConnections w) w0 Hnd Hready) as [Hloop Hlen].
  change (peerConnections w0) with (peerConnections w).
  erewrite bind_ok; [|exact Hloop]. rewrite sendSignal_eq.
  eexists. split; [reflexivity|]. simpl.
  split_and!; try done.
  - unfold transmitted, screen_share_started, offers. simpl.
    destruct (bool_decide (ws w = Some OPEN)); simpl.
    + by rewrite <- app_assoc.
    + by rewrite !app_nil_r.
  - intros pc o Hin Ho.
    destruct (bool_decide _); simpl; by apply share_all_lookup.
  - by destruct (bool_decide _).
  - by destruct (bool_decide _).
Qed.

End FanOut.

(** ** No handler throws *)

Section NoThrow.
Import Negotiation.







End NoThrow.

(** ** Stopping a screen share *)

Section FanIn.
Import Negotiation.

Lemma unshare_one track (e : key * nat) (w : World) (o : PcObject) :
  heap w !! e.2 = Some o →
  can_offer (pc_state o) = true →
  track ∈ senders (pc_state o) →
  try_catch (sender ← hasSender e.2 track;
             when sender (pcCall e.2 (removeTrack track);; negotiate e.1 e.2))
            (log (ErrRemovingScreenShare e.1)) w =
    (Normal tt,
     set_wire
       (wire w ++ transmitted w
          [offer_message (userId w) e.1
             (describe SdpOffer
                (with_senders (filter (λ t, t ≠ track) (senders (pc_state o)))
                   (pc_state o)))])
       (with_pc e.2 (unsharing track (pc_state o)) w)).
Proof.
  intros Ho Hcan Hin. apply try_catch_ok.
  erewrite bind_ok.
  2:{ unfold hasSender. eapply pcQuery_ok; [exact Ho|]. reflexivity. }
  rewrite bool_decide_eq_true_2 by done. unfold when.
  set (s1 := with_senders (filter (λ t, t ≠ track) (senders (pc_state o))) (pc_state o)
             : @RTCPeerConnection platform).
  assert (remove_track track (pc_state o) = Some s1) as Hrem.
  { unfold remove_track, can_offer in *.
    by rewrite decide_False by (intros Hc; by rewrite Hc in Hcan). }
  erewrite bind_ok; [| by eapply pcCall_ok ].
  pose proof (with_pc_lookup e.2 s1 w o Ho) as Ho1.
  assert (create_offer s1 = Some (describe SdpOffer s1)) as Hoffer.
  { unfold create_offer, can_offer in *. simpl. by destruct (state (pc_state o)). }
  assert (set_local (describe SdpOffer s1) s1 = Some (unsharing track (pc_state o)))
    as Hlocal.
  { unfold set_local, can_offer in *. simpl. by destruct (state (pc_state o)). }
  erewrite negotiate_eq; [| exact Ho1 | exact Hoffer | exact Hlocal ].
  rewrite sendSignal_eq, with_pc_with_pc. unfold transmitted, offer_message. simpl.
  destruct (bool_decide (ws w = Some OPEN)); [done|].
  by rewrite app_nil_r.
Qed.

Lemma unshare_offer_other self track (h : list PcObject) f pc (l : list (key * nat)) :
  pc ∉ l.*2 →
  omap (unshare_offer self track (alter f pc h)) l =
  omap (unshare_offer self track h) l.
Proof.
  induction l as [|e l IH]; intros Hpc; [done|].
  change ((e :: l).*2) with (e.2 :: l.*2) in Hpc.
  apply not_elem_of_cons in Hpc as [Hne Hpc]. specialize (IH Hpc).
  change (omap ?f (e :: l)) with
    (match f e with Some y => y :: omap f l | None => omap f l end).
  rewrite IH. unfold unshare_offer at 1 3. by rewrite list_lookup_alter_ne.
Qed.

Lemma ready_to_unshare_other track (l : list (key * nat)) (h : list PcObject) f pc :
  pc ∉ l.*2 → ready_to_unshare track l h → ready_to_unshare track l (alter f pc h).
Proof.
  unfold ready_to_unshare. intros Hpc Hl. induction Hl as [|e l He Hl IH]; [done|].
  change ((e :: l).*2) with (e.2 :: l.*2) in Hpc.
  apply not_elem_of_cons in Hpc as [Hne Hpc].
  constructor; [|by apply IH]. by rewrite list_lookup_alter_ne.
Qed.

Lemma forEach_unshare track (l : list (key * nat)) (w : World) :
  NoDup l.*2 →
  ready_to_unshare track l (heap w) →
  forEach l (λ e,
    try_catch (sender ← hasSender e.2 track;
               when sender (pcCall e.2 (removeTrack track);; negotiate e.1 e.2))
              (log (ErrRemovingScreenShare e.1))) w =
    (Normal tt,
     set_wire
       (wire w ++ transmitted w (omap (unshare_offer (userId w) track (heap w)) l))
       (set_heap (unshare_all track l (heap w)) w)) ∧
  length (omap (unshare_offer (userId w) track (heap w)) l) = length l.
Proof.
  revert w. induction l as [|e l IH]; intros w Hnd Hready.
  - simpl. split; [|done]. unfold transmitted.
    destruct (bool_decide (ws w = Some OPEN)); rewrite app_nil_r; by destruct w.
  - change ((e :: l).*2) with (e.2 :: l.*2) in Hnd.
    apply NoDup_cons in Hnd as [Hnotin Hnd].
    apply Forall_cons in Hready as [(o & Ho & Hcan & Hin) Hready].
    pose proof (unshare_one track e w o Ho Hcan Hin) as Hone.
    set (oe := offer_message (userId w) e.1
                 (describe SdpOffer
                    (with_senders (filter (λ t, t ≠ track) (senders (pc_state o)))
                       (pc_state o))))
      in *.
    set (s1 := unsharing track (pc_state o) : @RTCPeerConnection platform) in *.
    set (w1 := set_wire (wire w ++ transmitted w [oe]) (with_pc e.2 s1 w)) in *.
    destruct (IH w1 Hnd) as [Hrest Hlen].
    { by apply ready_to_unshare_other. }
    change (heap w1) with
      (alter (λ o0, {| pc_state := s1; pc_peer := pc_peer o0 |}) e.2 (heap w))
      in Hrest, Hlen.
    change (userId w1) with (userId w) in Hrest, Hlen.
    rewrite unshare_offer_other in Hrest, Hlen by done.
    assert (unshare_offer (userId w) track (heap w) e = Some oe) as Hoe
      by (unfold unshare_offer; by rewrite Ho).
    change (omap ?f (e :: l)) with
      (match f e with Some y => y :: omap f l | None => omap f l end).
    rewrite Hoe. split; [|simpl; by f_equal].
    change (forEach (e :: l) ?f) with (f e ≫= λ _, forEach l f).
    erewrite bind_ok; [|exact Hone]. rewrite Hrest.
    assert (unshare_all track (e :: l) (heap w) =
            unshare_all track l
              (alter (λ o0, {| pc_state := s1; pc_peer := pc_peer o0 |})
                     e.2 (heap w))) as ->.
    { unfold unshare_all. simpl. f_equal.
      apply list_alter_ext; [|done]. intros o' Ho'.
      rewrite Ho in Ho'. by injection Ho' as <-. }
    unfold w1, transmitted. simpl.
    destruct (bool_decide (ws w = Some OPEN)).
    + by rewrite <- app_assoc.
    + by rewrite !app_nil_r.
Qed.

Lemma unshare_all_skip track (l : list (key * nat)) (h : list PcObject) pc :
  pc ∉ l.*2 → unshare_all track l h !! pc = h !! pc.
Proof.
  revert h. induction l as [|[k r] l IH]; intros h Hpc; [done|].
  change (((k, r) :: l).*2) with (r :: l.*2) in Hpc.
  apply not_elem_of_cons in Hpc as [Hne Hpc].
  change (unshare_all track ((k, r) :: l) h) with
    (unshare_all track l
       (alter (λ o, {| pc_state := unsharing track (pc_state o);
                       pc_peer := pc_peer o |}) r h)).
  rewrite IH by done. by apply list_lookup_alter_ne.
Qed.

Lemma unshare_all_lookup track (l : list (key * nat)) (h : list PcObject) pc o :
  NoDup l.*2 → pc ∈ l.*2 → h !! pc = Some o →
  unshare_all track l h !! pc =
    Some {| pc_state := unsharing track (pc_state o); pc_peer := pc_peer o |}.
Proof.
  revert h. induction l as [|[k r] l IH]; intros h Hnd Hin Ho.
  - by apply elem_of_nil in Hin.
  - change (((k, r) :: l).*2) with (r :: l.*2) in *.
    apply NoDup_cons in Hnd as [Hnotin Hnd].
    change (unshare_all track ((k, r) :: l) h) with
      (unshare_all track l
         (alter (λ o, {| pc_state := unsharing track (pc_state o);
                         pc_peer := pc_peer o |}) r h)).
    apply elem_of_cons in Hin as [Heq|Hin].
    + subst r. rewrite unshare_all_skip by done.
      by rewrite list_lookup_alter_eq, Ho.
    + apply IH; [done | done |].
      rewrite list_lookup_alter_ne; [done|]. by intros ->.
Qed.

Lemma removeScreenShareTrack_eq (track : MediaStreamTrack) (w : World) :
  NoDup (peerConnections w).*2 →
  ready_to_unshare track (peerConnections w) (heap w) →
  removeScreenShareTrack track w =
    (Normal tt,
     set_wire
       (wire w ++ transmitted w
          (omap (unshare_offer (userId w) track (heap w)) (peerConnections w) ++
           [screen_share_stopped (userId w)]))
       (set_heap (unshare_all track (peerConnections w) (heap w))
          (set_console (console w ++ [LogRemovingScreenShare]) w))).
Proof.
  intros Hnd Hready.
  unfold removeScreenShareTrack. rewrite bind_log, bind_get.
  set (w0 := set_console (console w ++ [LogRemovingScreenShare]) w).
  destruct (forEach_unshare track (peerConnections w) w0 Hnd Hready) as [Hloop _].
  change (peerConnections w0) with (peerConnections w).
  erewrite bind_ok; [|exact Hloop]. rewrite sendSignal_eq.
  unfold transmitted, screen_share_stopped. simpl.
  destruct (bool_decide (ws w = Some OPEN)); simpl.
  - by rewrite <- app_assoc.
  - by rewrite !app_nil_r.
Qed.

(** X17. Stopping a screen share renegotiates with everybody as well.  When
    the map refers to distinct connection objects that each send the
    track and can make an offer, [removeScreenShareTrack] detaches the
    track from every one of them, leaves each with a pending local
    offer, and sends one offer per map entry, in map order, followed by
    the screen-share-stopped notice; no error is logged. *)
Theorem stop_share_fans_out (track : MediaStreamTrack) (w : World) :
  NoDup (peerConnections w).*2 →
  ready_to_unshare track (peerConnections w) (heap w) →
  let offers := omap (unshare_offer (userId w) track (heap w)) (peerConnections w) in
  ∃ w',
    removeScreenShareTrack track w = (Normal tt, w') ∧
    wire w' = wire w ++ transmitted w (offers ++ [screen_share_stopped (userId w)]) ∧
    length offers = length (peerConnections w) ∧
    (∀ pc o, pc ∈ (peerConnections w).*2 → heap w !! pc = Some o →
             heap w' !! pc = Some {| pc_state := unsharing track (pc_state o);
                                     pc_peer := pc_peer o |}) ∧
    peerConnections w' = peerConnections w ∧
    console w' = console w ++ [LogRemovingScreenShare].
Proof.
  intros Hnd Hready offers.
  eexists. split; [by apply removeScreenShareTrack_eq|]. simpl.
  split_and!; try done.
  - by destruct (forEach_unshare track (peerConnections w) w Hnd Hready).
  - intros pc o Hin Ho. by apply unshare_all_lookup.
Qed.

End FanIn.

(** ** Starting and then stopping a screen share *)

Section ShareRoundTrip.
Import Negotiation.

Lemma addScreenShareTrack_eq (track : MediaStreamTrack) (w : World) :
  NoDup (peerConnections w).*2 →
  ready_to_share track (peerConnections w) (heap w) →
  addScreenShareTrack track w =
    (Normal tt,
     set_wire
       (wire w ++ transmitted w
          (omap (share_offer (userId w) track (heap w)) (peerConnections w) ++
           [screen_share_started (userId w)]))
       (set_heap (share_all track (peerConnections w) (heap w))
          (set_console (console w ++ [LogAddingScreenShare]) w))).
Proof.
  intros Hnd Hready.
  unfold addScreenShareTrack. rewrite bind_log, bind_get.
  set (w0 := set_console (console w ++ [LogAddingScreenShare]) w).
  destruct (forEach_share track (peerConnections w) w0 Hnd Hready) as [Hloop _].
  change (peerConnections w0) with (peerConnections w).
  erewrite bind_ok; [|exact Hloop]. rewrite sendSignal_eq.
  unfold transmitted, screen_share_started. simpl.
  destruct (bool_decide (ws w = Some OPEN)); simpl.
  - by rewrite <- app_assoc.
  - by rewrite !app_nil_r.
Qed.

Lemma filter_out_absent (track : MediaStreamTrack) (ts : list MediaStreamTrack) :
  track ∉ ts → filter (λ t, t ≠ track) (ts ++ [track]) = ts.
Proof.
  intros Hnot. rewrite filter_app.
  assert (filter (λ t, t ≠ track) ts = ts) as ->.
  { induction ts as [|t ts IH]; [done|].
    apply not_elem_of_cons in Hnot as [Hne Hnot].
    rewrite filter_cons_True by done. by rewrite IH. }
  rewrite filter_cons_False by (by intros ?). by rewrite app_nil_r.
Qed.

Lemma omap_ext_Forall {A B} (f g : A → option B) (l : list A) :
  Forall (λ x, f x = g x) l → omap f l = omap g l.
Proof.
  induction 1 as [|x l Hx Hl IH]; [done|].
  change (omap ?f (x :: l)) with
    (match f x with Some y => y :: omap f l | None => omap f l end).
  by rewrite Hx, IH.
Qed.

(** X18. A screen share that is started and then stopped leaves every
    connection with the tracks it had before.  Under the conditions of
    the fan-out, after [addScreenShareTrack] and [removeScreenShareTrack]
    for the same track each connection in the map has its old track
    list, its old remote description and candidates, and a pending
    local offer that describes the old track list; stopping sends a
    second offer to every participant, which restores the old tracks,
    and then the screen-share-stopped notice. *)
Theorem share_then_stop (track : MediaStreamTrack) (w : World) :
  NoDup (peerConnections w).*2 →
  ready_to_share track (peerConnections w) (heap w) →
  let w1 := (addScreenShareTrack track w).2 in
  ∃ w2,
    removeScreenShareTrack track w1 = (Normal tt, w2) ∧
    (∀ pc o, pc ∈ (peerConnections w).*2 → heap w !! pc = Some o →
       heap w2 !! pc =
         Some {| pc_state :=
                   {| state := HAVE_LOCAL_OFFER;
                      localDescription := Some (describe SdpOffer (pc_state o));
                      remoteDescription := remoteDescription (pc_state o);
                      senders := senders (pc_state o);
                      remoteCandidates := remoteCandidates (pc_state o) |};
                 pc_peer := pc_peer o |}) ∧
    wire w2 = wire w1 ++ transmitted w
      (omap (restore_offer (userId w) (heap w)) (peerConnections w) ++
       [screen_share_stopped (userId w)]) ∧
    peerConnections w2 = peerConnections w.
Proof.
  intros Hnd Hready w1.
  pose proof (addScreenShareTrack_eq track w Hnd Hready) as Hadd.
  assert (peerConnections w1 = peerConnections w) as Hpcs
    by (unfold w1; by rewrite Hadd).
  assert (heap w1 = share_all track (peerConnections w) (heap w)) as Hheap
    by (unfold w1; by rewrite Hadd).
  assert (userId w1 = userId w) as Hself by (unfold w1; by rewrite Hadd).
  assert (ws w1 = ws w) as Hws by (unfold w1; by rewrite Hadd).
  assert (Forall (λ e : key * nat,
            ∃ o, heap w !! e.2 = Some o ∧ (track ∉ senders (pc_state o)) ∧
                 heap w1 !! e.2 =
                   Some {| pc_state := sharing track (pc_state o);
                           pc_peer := pc_peer o |}) (peerConnections w)) as Hshared.
  { apply Forall_forall. intros e He.
    unfold ready_to_share in Hready. rewrite Forall_forall in Hready.
    destruct (Hready e He) as (o & Ho & _ & Hnot). exists o.
    split_and!; [done | done |]. rewrite Hheap.
    apply share_all_lookup; [done | | done].
    apply list_elem_of_fmap. by exists e. }
  assert (ready_to_unshare track (peerConnections w1) (heap w1)) as Hready1.
  { rewrite Hpcs. unfold ready_to_unshare.
    eapply Forall_impl; [exact Hshared|]. intros e (o & Ho & Hnot & Ho1).
    eexists. split_and!; [exact Ho1 | done |].
    simpl. apply elem_of_app. right. by apply list_elem_of_singleton. }
  assert (NoDup (peerConnections w1).*2) as Hnd1 by by rewrite Hpcs.
  eexists. split; [by apply removeScreenShareTrack_eq|]. simpl.
  rewrite Hpcs, Hself. split_and!; [| | done].
  - intros pc o Hin Ho.
    assert (heap w1 !! pc = Some {| pc_state := sharing track (pc_state o);
                                    pc_peer := pc_peer o |}) as Ho1.
    { rewrite Hheap. by apply share_all_lookup. }
    rewrite (unshare_all_lookup track _ _ pc _ Hnd Hin Ho1). simpl.
    unfold ready_to_share in Hready. rewrite Forall_forall in Hready.
    apply list_elem_of_fmap in Hin as (e & -> & He).
    destruct (Hready e He) as (o' & Ho' & _ & Hnot).
    rewrite Ho in Ho'. injection Ho' as <-.
    unfold unsharing, describe. simpl. by rewrite filter_out_absent.
  - unfold transmitted. rewrite Hws.
    assert (omap (unshare_offer (userId w) track (heap w1)) (peerConnections w) =
            omap (restore_offer (userId w) (heap w)) (peerConnections w)) as ->;
      [|done].
    apply omap_ext_Forall. eapply Forall_impl; [exact Hshared|].
    intros e (o & Ho & Hnot & Ho1). unfold unshare_offer, restore_offer.
    rewrite Ho1, Ho. simpl. unfold describe. simpl.
    by rewrite filter_out_absent.
Qed.

End ShareRoundTrip.

(** ** A replaced local stream *)

Section LocalStream.
Import Negotiation.

(** X19. [updateLocalStream] only replaces the stream the handler remembers:
    no connection changes and nothing is renegotiated or sent, so the
    connections that exist keep sending the tracks they were given.  The
    new stream is what a connection made afterwards gets: after a later
    user-joined message the new connection sends exactly the new
    stream's tracks. *)
Theorem new_stream_is_for_new_connections
    (ts : list MediaStreamTrack) (joined : Message) (w : World) (id : string) :
  NoDup ts →
  msg_userId joined = Some id →
  id ≠ userId w →
  let w1 := (updateLocalStream (Some ts) w).2 in
  let w2 := (handleUserJoined joined w1).2 in
  heap w1 = heap w ∧ wire w1 = wire w ∧
  peerConnections w1 = peerConnections w ∧
  connection (Some id) w2 = Some (offering ts) ∧
  (∀ r, r < length (heap w) → heap w2 !! r = heap w !! r).
Proof.
  intros Hnd Hid Hself w1 w2. split_and!; [done | done | done | |].
  - assert (msg_userId joined ≠ Some (userId w1)) as Hne
      by (rewrite Hid; simpl; congruence).
    pose proof (handleUserJoined_offers joined w1 Hne Hnd) as Hjoin.
    cbv zeta in Hjoin. unfold w2. rewrite Hjoin, Hid.
    unfold connection. simpl. rewrite jsmap_get_set_eq. simpl.
    rewrite list_lookup_alter_eq.
    by rewrite (list_lookup_middle (heap w) [] _ (length (heap w))).
  - intros r Hr.
    assert (msg_userId joined ≠ Some (userId w1)) as Hne
      by (rewrite Hid; simpl; congruence).
    pose proof (handleUserJoined_offers joined w1 Hne Hnd) as Hjoin.
    cbv zeta in Hjoin. unfold w2. rewrite Hjoin. simpl.
    rewrite list_lookup_alter_ne by lia. by apply lookup_app_l.
Qed.

End LocalStream.

(** ** The further properties at the meeting of three *)

Section MeetingMore.
Import Negotiation Meeting.

Lemma guarded_events_return_witness :
  guarded (EMessage (answer_from "u3")) ∧
  connection (Some "u3") with_both = Some (pc_state eves) ∧
  setRemoteDescription remote_answer (pc_state eves) = None ∧
  ∃ w', react (EMessage (answer_from "u3")) with_both = (Normal tt, w').
Proof.
  assert (guarded (EMessage (answer_from "u3"))) as Hg by (split; discriminate).
  split_and!; [exact Hg | reflexivity | reflexivity |].
  exact (guarded_events_return (EMessage (answer_from "u3")) with_both Hg).
Defined.

Lemma user_left_closes_and_removes_witness :
  jsmap_get (msg_userId bob_left) (peerConnections with_both) = Some 0 ∧
  heap with_both !! 0 = Some bobs_first ∧
  ∃ w',
    handleUserLeft bob_left with_both = (Normal tt, w') ∧
    jsmap_get (Some "u2") (peerConnections w') = None ∧
    (∀ k, k ≠ Some "u2" →
          jsmap_get k (peerConnections w') = jsmap_get k (peerConnections with_both)) ∧
    heap w' !! 0 = Some (closed bobs_first) ∧
    (∀ r, r ≠ 0 → heap w' !! r = heap with_both !! r) ∧
    wire w' = wire with_both ∧
    console w' = console with_both ++ [LogUserLeft (Some "u2")].
Proof.
  split_and!; [reflexivity | reflexivity |].
  exact (user_left_closes_and_removes bob_left with_both 0 bobs_first
           eq_refl eq_refl).
Defined.

Lemma join_then_leave_witness :
  msg_userId bob_joined = Some "u2" ∧
  msg_userId bob_left = Some "u2" ∧
  "u2" ≠ userId alice ∧
  jsmap_get (Some "u2") (peerConnections alice) = None ∧
  peerConnections (handleUserLeft bob_left (handleUserJoined bob_joined alice).2).2 =
    peerConnections alice.
Proof.
  assert ("u2" ≠ userId alice) as Hother by discriminate.
  split_and!; [reflexivity | reflexivity | exact Hother | reflexivity |].
  exact (proj1 (proj2 (join_then_leave bob_joined bob_left alice "u2"
                         eq_refl eq_refl Hother)) eq_refl).
Defined.

Lemma nothing_sent_unless_open_witness :
  ws alice_offline ≠ Some OPEN ∧
  Forall (λ e, e ≠ EWsOpen) before_open ∧
  wire (run before_open alice_offline) = wire alice_offline ∧
  ws (run before_open alice_offline) ≠ Some OPEN.
Proof.
  assert (ws alice_offline ≠ Some OPEN) as Hws by discriminate.
  assert (Forall (λ e, e ≠ EWsOpen) before_open) as Hes
    by (repeat constructor; discriminate).
  split_and!; [exact Hws | exact Hes | |];
    apply (nothing_sent_unless_open before_open alice_offline Hws Hes).
Defined.

Lemma join_is_sent_first_witness :
  let w := run [EInitialize signaling_url; EWsOpen; EMessage bob_joined] alice_offline in
  ws w = Some OPEN ∧
  head (wire w) = Some (join_message "u1" "Alice") ∧
  wire w ≠ [].
Proof.
  intros w.
  pose proof (join_is_sent_first "m1" "u1" "Alice" (Some [mic; cam])
                [EInitialize signaling_url; EWsOpen; EMessage bob_joined]) as [_ Hopen].
  split_and!; [reflexivity | reflexivity | exact (Hopen eq_refl)].
Defined.

Lemma local_candidates_reach_their_peer_witness :
  heap with_bob !! 0 = Some bobs_first ∧
  let w' := run [EMessage bob_left] with_bob in
  jsmap_get (Some "u2") (peerConnections w') = None ∧
  ws w' = Some OPEN ∧
  onicecandidate 0 (Some host1) w' =
    (Normal tt,
     set_wire (wire w' ++ [candidate_signal "u1" (Some "u2") host1]) w').
Proof.
  split; [reflexivity|]. intros w'.
  split_and!; [reflexivity | reflexivity |].
  exact (proj2 (local_candidates_reach_their_peer [EMessage bob_left] with_bob 0
                  bobs_first host1 eq_refl) eq_refl).
Defined.

Lemma screen_unshared : unshared screen with_both.
Proof.
  repeat (apply Forall_cons; split;
          [eexists; split; [reflexivity|];
           apply (bool_decide_unpack _); vm_compute; exact I|]).
  apply Forall_nil_2.
Defined.

Lemma remove_unshared_track_witness :
  unshared screen with_both ∧
  removeScreenShareTrack screen with_both =
    (Normal tt,
     set_wire (wire with_both ++
                 transmitted with_both [screen_share_stopped (userId with_both)])
       (set_console (console with_both ++ [LogRemovingScreenShare]) with_both)).
Proof.
  split; [exact screen_unshared|].
  exact (remove_unshared_track screen with_both screen_unshared).
Defined.

Lemma alice_tracks_NoDup : NoDup (default [] (localStream alice)).
Proof. apply (bool_decide_unpack _). vm_compute. exact I. Defined.

Lemma offer_answer_round_witness :
  msg_userId bob_joined = Some "u2" ∧
  "u2" ≠ userId alice ∧
  NoDup (default [] (localStream alice)) ∧
  msg_from (answer_from "u2") = Some "u2" ∧
  msg_sdp (answer_from "u2") = Some remote_answer ∧
  sdp_type remote_answer = SdpAnswer ∧
  ∃ w2,
    handleAnswer (answer_from "u2") (handleUserJoined bob_joined alice).2 =
      (Normal tt, w2) ∧
    connection (Some "u2") w2 = Some (answered remote_answer (offering [mic; cam])).
Proof.
  assert ("u2" ≠ userId alice) as Hother by discriminate.
  split_and!; [reflexivity | exact Hother | exact alice_tracks_NoDup
              | reflexivity | reflexivity | reflexivity |].
  destruct (offer_answer_round bob_joined (answer_from "u2") alice "u2" remote_answer
              eq_refl Hother alice_tracks_NoDup eq_refl eq_refl eq_refl)
    as (w2 & Hrun & Hconn & _).
  exists w2. split; [exact Hrun | exact Hconn].
Defined.

Lemma join_without_userId_witness :
  msg_userId nobody_joined = None ∧
  NoDup (default [] (localStream alice)) ∧
  ws alice = Some OPEN ∧
  ∃ w' m,
    handleUserJoined nobody_joined alice = (Normal tt, w') ∧
    jsmap_get None (peerConnections w') = Some (length (heap alice)) ∧
    wire w' = wire alice ++ [m] ∧
    m !! "type" = Some (VStr "offer") ∧
    m !! "to" = None.
Proof.
  split_and!; [reflexivity | exact alice_tracks_NoDup | reflexivity |].
  exact (join_without_userId nobody_joined alice eq_refl alice_tracks_NoDup eq_refl).
Defined.

Lemma offer_from_known_participant_witness :
  jsmap_get (msg_from (offer_from "u3")) (peerConnections with_both) = Some 1 ∧
  heap with_both !! 1 = Some eves ∧
  takes_offer (pc_state eves) = true ∧
  msg_sdp (offer_from "u3") = Some remote_offer ∧
  sdp_type remote_offer = SdpOffer ∧
  ∃ w',
    handleOffer (offer_from "u3") with_both = (Normal tt, w') ∧
    length (heap w') = length (heap with_both) ∧
    heap w' !! 1 = Some {| pc_state := reanswered remote_offer (pc_state eves);
                           pc_peer := pc_peer eves |}.
Proof.
  split_and!; [reflexivity | reflexivity | reflexivity | reflexivity | reflexivity |].
  destruct (offer_from_known_participant (offer_from "u3") with_both 1 eves
              remote_offer eq_refl eq_refl eq_refl eq_refl eq_refl)
    as (w' & Hrun & _ & Hlen & Hpc & _).
  exists w'. split_and!; [exact Hrun | exact Hlen | exact Hpc].
Defined.

Lemma with_both_distinct : NoDup (peerConnections with_both).*2.
Proof. apply (bool_decide_unpack _). vm_compute. exact I. Defined.

Lemma with_both_ready : ready_to_share screen (peerConnections with_both) (heap with_both).
Proof.
  repeat (apply Forall_cons; split;
          [eexists; split; [reflexivity|]; split; [reflexivity|];
           apply (bool_decide_unpack _); vm_compute; exact I|]).
  apply Forall_nil_2.
Defined.

Lemma screen_share_fans_out_witness :
  NoDup (peerConnections with_both).*2 ∧
  ready_to_share screen (peerConnections with_both) (heap with_both) ∧
  ∃ w',
    addScreenShareTrack screen with_both = (Normal tt, w') ∧
    length (wire w') = length (wire with_both) + 3.
Proof.
  split_and!; [exact with_both_distinct | exact with_both_ready |].
  destruct (screen_share_fans_out screen with_both with_both_distinct with_both_ready)
    as (w' & Hrun & Hwire & _).
  exists w'. split; [exact Hrun|]. rewrite Hwire. reflexivity.
Defined.


Lemma with_both_send_cam :
  ready_to_unshare cam (peerConnections with_both) (heap with_both).
Proof.
  repeat (apply Forall_cons; split;
          [eexists; split; [reflexivity|]; split; [reflexivity|];
           apply (bool_decide_unpack _); vm_compute; exact I|]).
  apply Forall_nil_2.
Defined.

Lemma stop_share_fans_out_witness :
  NoDup (peerConnections with_both).*2 ∧
  ready_to_unshare cam (peerConnections with_both) (heap with_both) ∧
  ∃ w',
    removeScreenShareTrack cam with_both = (Normal tt, w') ∧
    length (wire w') = length (wire with_both) + 3.
Proof.
  split_and!; [exact with_both_distinct | exact with_both_send_cam |].
  destruct (stop_share_fans_out cam with_both with_both_distinct with_both_send_cam)
    as (w' & Hrun & Hwire & _).
  exists w'. split; [exact Hrun|]. rewrite Hwire. reflexivity.
Defined.

Lemma share_then_stop_witness :
  NoDup (peerConnections with_both).*2 ∧
  ready_to_share screen (peerConnections with_both) (heap with_both) ∧
  ∃ w2,
    removeScreenShareTrack screen (addScreenShareTrack screen with_both).2 =
      (Normal tt, w2) ∧
    senders ∘ pc_state <$> heap w2 !! 1 = Some [mic; cam].
Proof.
  split_and!; [exact with_both_distinct | exact with_both_ready |].
  destruct (share_then_stop screen with_both with_both_distinct with_both_ready)
    as (w2 & Hrun & Hheap & _).
  exists w2. split; [exact Hrun|].
  rewrite (Hheap 1 eves); [reflexivity | | reflexivity].
  apply (bool_decide_unpack _). vm_compute. exact I.
Defined.

Lemma new_stream_is_for_new_connections_witness :
  NoDup [mic] ∧
  msg_userId bob_joined = Some "u2" ∧
  "u2" ≠ userId with_both ∧
  let w1 := (updateLocalStream (Some [mic]) with_both).2 in
  let w2 := (handleUserJoined bob_joined w1).2 in
  heap w1 = heap with_both ∧ wire w1 = wire with_both ∧
  peerConnections w1 = peerConnections with_both ∧
  connection (Some "u2") w2 = Some (offering [mic]) ∧
  (∀ r, r < length (heap with_both) → heap w2 !! r = heap with_both !! r).
Proof.
  assert (NoDup [mic]) as Hnd by apply NoDup_singleton.
  assert ("u2" ≠ userId with_both) as Hother by discriminate.
  split_and!; [exact Hnd | reflexivity | exact Hother |].
  exact (new_stream_is_for_new_connections [mic] bob_joined with_both "u2"
           Hnd eq_refl Hother).
Defined.

End MeetingMore.
